(** * Supply-chain dashboard: the record pipeline behind [App.tsx]

    A shallow embedding of [renderForceGraph] (src/App.tsx, lines 215-237),
    the relationship graph builder, and of the filter and aggregation
    engines [App.tsx] composes it with ([filterData] and [aggregateData] of
    [./services/dataService]); then of the rest of the logic of [App.tsx]:
    the filter options, the data preview, the node captions, the style
    jackpot, the agents and the chat handler. *)

From Stdlib Require Import ZArith Ascii.
From Stdlib Require OrderedTypeEx.
From stdpp Require Import gmap strings list sorting.

Local Open Scope string_scope.
Local Open Scope list_scope.
Local Open Scope nat_scope.

(** ** Data model *)

(** One parsed line of the packing list ([PackingListItem] of [./types]); the
    six fields are the ones [App.tsx] reads. [Numbers] is the quantity. *)
Record PackingListItem := {
  Suppliername : string;
  deliverdate : string;
  customer : string;
  DeviceName : string;
  Numbers : Z;
  ModelNum : string
}.

(** The [group] of a graph node: ['supplier'], ['device'], ['customer']. *)
Module Group.
Inductive t := supplier | device | customer.

#[global] Instance eq_dec : EqDecision t.
Proof. solve_decision. Defined.
End Group.

(** [{ id, group, label }] *)
Module Node.
Record t := mk { id : string; group : Group.t; label : string }.

#[global] Instance eq_dec : EqDecision t.
Proof. solve_decision. Defined.
End Node.

(** [{ source, target, value }] *)
Module Link.
Record t := mk { source : string; target : string; value : Z }.

#[global] Instance eq_dec : EqDecision t.
Proof. solve_decision. Defined.
End Link.

(** The properties handed to [<GraphComponent nodes=.. links=.. theme=.. />].
    The theme only colours the drawing and is left out. *)
Module GraphComponent.
Record props := mk { nodes : list Node.t; links : list Link.t }.
End GraphComponent.

(** ** The graph builder *)

(** The three locals of [renderForceGraph] that the [forEach] callback
    mutates: the arrays [nodes] and [links] and the [Set] [nodeSet]. *)
Record Locals := {
  nodes : list Node.t;
  links : list Link.t;
  nodeSet : gset string
}.

(** [if (!nodeSet.has(i)) { nodes.push(n); nodeSet.add(i); }] with [i] the id
    of [n]. *)
Definition pushNode (n : Node.t) (st : Locals) : Locals :=
  if decide (Node.id n ∈ nodeSet st) then st
  else {| nodes := nodes st ++ [n];
          links := links st;
          nodeSet := {[ Node.id n ]} ∪ nodeSet st |}.

(** [links.push(l)] *)
Definition pushLink (l : Link.t) (st : Locals) : Locals :=
  {| nodes := nodes st; links := links st ++ [l]; nodeSet := nodeSet st |}.

(** The callback of [graphData.forEach(d => ...)], lines 223-234. *)
Definition forEach_body (st : Locals) (d : PackingListItem) : Locals :=
  let sup := "SUP:" +:+ Suppliername d in
  let dev := "DEV:" +:+ DeviceName d in
  let cust := "CUST:" +:+ customer d in
  let st := pushNode (Node.mk sup Group.supplier (Suppliername d)) st in
  let st := pushNode (Node.mk dev Group.device (DeviceName d)) st in
  let st := pushNode (Node.mk cust Group.customer (customer d)) st in
  let st := pushLink (Link.mk sup dev 1%Z) st in
  pushLink (Link.mk dev cust (Numbers d)) st.

(** [a.slice(b, e)] for [0 <= b <= e]: the elements at the positions
    [b <= i < e] that exist (an end past the length is clamped). *)
Definition slice {A} (b e : nat) (a : list A) : list A := take (e - b) (drop b a).

(** [renderForceGraph], with [filteredData] made a parameter. [None] is the
    [null] of line 216. *)
Definition renderForceGraph (filteredData : list PackingListItem)
  : option GraphComponent.props :=
  if length filteredData =? 0 then None
  else
    let graphData := slice 0 100 filteredData in
    let st := fold_left forEach_body graphData
                {| nodes := []; links := []; nodeSet := ∅ |} in
    Some (GraphComponent.mk (nodes st) (links st)).

(** What a call leaves for the renderer: the nodes and links of the graph it
    returns, and none of either when it returns [null]. *)
Definition producedNodes (filteredData : list PackingListItem) : list Node.t :=
  match renderForceGraph filteredData with
  | Some g => GraphComponent.nodes g
  | None => []
  end.

Definition producedLinks (filteredData : list PackingListItem) : list Link.t :=
  match renderForceGraph filteredData with
  | Some g => GraphComponent.links g
  | None => []
  end.

(** ** Reading the result against the records

    The definitions below are not code of [App.tsx]: they say, record by
    record, what the graph is expected to hold. *)

(** The id prefix that goes with a group (the template literals of lines
    224-226). *)
Definition tag (grp : Group.t) : string :=
  match grp with
  | Group.supplier => "SUP:"
  | Group.device => "DEV:"
  | Group.customer => "CUST:"
  end.

(** The raw field a group is read from. *)
Definition field (grp : Group.t) (d : PackingListItem) : string :=
  match grp with
  | Group.supplier => Suppliername d
  | Group.device => DeviceName d
  | Group.customer => customer d
  end.

(** The node a record asks for in a group. *)
Definition nodeOf (grp : Group.t) (d : PackingListItem) : Node.t :=
  Node.mk (tag grp +:+ field grp d) grp (field grp d).

(** The nodes a record refers to, in the order the callback looks at them. *)
Definition recordNodes (d : PackingListItem) : list Node.t :=
  [nodeOf Group.supplier d; nodeOf Group.device d; nodeOf Group.customer d].

(** The two links of a record. *)
Definition recordLinks (d : PackingListItem) : list Link.t :=
  [Link.mk (tag Group.supplier +:+ Suppliername d)
           (tag Group.device +:+ DeviceName d) 1%Z;
   Link.mk (tag Group.device +:+ DeviceName d)
           (tag Group.customer +:+ customer d) (Numbers d)].

(** Every node reference of a run of records, in scanning order. *)
Definition candidates (rs : list PackingListItem) : list Node.t :=
  rs ≫= recordNodes.

(** Keep, of a sequence of nodes, the first one of every id. *)
Fixpoint firstSeen (l : list Node.t) : list Node.t :=
  match l with
  | [] => []
  | n :: l' => n :: filter (λ m, Node.id m ≠ Node.id n) (firstSeen l')
  end.

(** Position of the first occurrence of [x] in [l] ([length l] if none). *)
Fixpoint firstPos (x : string) (l : list string) : nat :=
  match l with
  | [] => 0
  | y :: l' => if decide (y = x) then 0 else S (firstPos x l')
  end.

(** The id prefix as the specification words it: the group's own name. *)
Definition specTag (grp : Group.t) : string :=
  match grp with
  | Group.supplier => "supplier:"
  | Group.device => "device:"
  | Group.customer => "customer:"
  end.

(** Pushing a run of nodes, links left alone. *)
Definition pushAll (ns : list Node.t) (st : Locals) : Locals :=
  fold_left (λ st n, pushNode n st) ns st.

(** ** Filter and aggregation engines

    [filterData] and [aggregateData] are imported by [App.tsx] from
    [./services/dataService]. [App.tsx] fixes how they are called (lines
    51-52), the shape of the criteria (line 26) and the fields read off the
    result (lines 175-178, 405-408, 423-443); what they compute is taken
    from the specification, sections 3, 4.2 and 4.3. *)

(** [DataFilters] of [./types], with the four fields of line 26; the empty
    string is the unset criterion. *)
Module DataFilters.
Record t := mk {
  supplier : string;
  device : string;
  startDate : string;
  endDate : string
}.
End DataFilters.

(** [{ date, value }] *)
Module SeriesPoint.
Record t := mk { date : string; value : Z }.
End SeriesPoint.

(** [{ name, value }] *)
Module DeviceTotal.
Record t := mk { name : string; value : Z }.
End DeviceTotal.

Module AggregateResult.
Record t := mk {
  totalLines : nat;
  totalUnits : Z;
  uniqueSuppliers : nat;
  uniqueCustomers : nat;
  timeSeries : list SeriesPoint.t;
  topDevices : list DeviceTotal.t
}.
End AggregateResult.

(** Modelled from the spec: the ranking order of the absent [aggregateData]
    (section 4.3): larger sum first, equal sums by name ascending (names
    compared code unit by code unit). *)
Definition rankBefore (a b : DeviceTotal.t) : Prop :=
  (DeviceTotal.value b < DeviceTotal.value a)%Z ∨
  (DeviceTotal.value a = DeviceTotal.value b ∧
   String.leb (DeviceTotal.name a) (DeviceTotal.name b) = true).

#[global] Instance rankBefore_dec a b : Decision (rankBefore a b).
Proof. unfold rankBefore. apply _. Defined.

(** Modelled from the spec: the sums of the absent [aggregateData]: the
    quantities of the records that satisfy [keep], added up from 0. *)
Definition unitsWhere (keep : PackingListItem → bool) (rs : list PackingListItem) : Z :=
  fold_left (λ acc r, if keep r then (acc + Numbers r)%Z else acc) rs 0%Z.

(** Modelled from the spec: the fixed N of the top-N device list
    (section 3: N = 10). *)
Definition topN : nat := 10.

Section DataService.
(** The reading of a date text as a point in time, [None] when the text is
    not a date: the date parsing of the host, on which the data service
    relies. *)
Variable parseDate : string → option Z.

(** Modelled from the spec: the criterion test of the absent [filterData]
    (section 4.2): exact match, the empty criterion matches everything. *)
Definition matchesText (criterion value : string) : bool :=
  if decide (criterion = "") then true else bool_decide (value = criterion).

(** Modelled from the spec: one side of the inclusive date range of the
    absent [filterData]; an unset bound does not restrict, a set bound
    excludes a record whose date cannot be read. *)
Definition boundHolds (lower : bool) (bound date : string) : bool :=
  if decide (bound = "") then true
  else match parseDate bound, parseDate date with
       | Some b, Some t => if lower then (b <=? t)%Z else (t <=? b)%Z
       | _, _ => false
       end.

(** Modelled from the spec: the absent [filterData] of
    [services/dataService] (section 4.2): the four criteria are ANDed and
    the order of the records is kept. *)
Definition filterData (records : list PackingListItem) (criteria : DataFilters.t)
  : list PackingListItem :=
  List.filter
    (λ r, matchesText (DataFilters.supplier criteria) (Suppliername r)
          && matchesText (DataFilters.device criteria) (DeviceName r)
          && boundHolds true (DataFilters.startDate criteria) (deliverdate r)
          && boundHolds false (DataFilters.endDate criteria) (deliverdate r))
    records.

(** Modelled from the spec: the chronological order of the time series
    of the absent [aggregateData] (section 4.3), dates compared as points
    in time; a text that is no date sorts first. *)
Definition chronoLe (a b : SeriesPoint.t) : Prop :=
  match parseDate (SeriesPoint.date a), parseDate (SeriesPoint.date b) with
  | Some x, Some y => (x ≤ y)%Z
  | None, _ => True
  | Some _, None => False
  end.

#[global] Instance chronoLe_dec a b : Decision (chronoLe a b).
Proof. unfold chronoLe. repeat case_match; apply _. Defined.

(** Modelled from the spec: the distinct non-empty values of a column,
    as counted by the absent [aggregateData] (section 4.3). *)
Definition distinctNonEmpty (col : PackingListItem → string)
    (rs : list PackingListItem) : list string :=
  remove_dups (filter (λ v, v ≠ "") (col <$> rs)).

(** Modelled from the spec: the time series of the absent [aggregateData]
    (sections 3 and 4.3): one entry per distinct date present, ascending. *)
Definition timeSeriesOf (rs : list PackingListItem) : list SeriesPoint.t :=
  merge_sort chronoLe
    ((λ d, SeriesPoint.mk d (unitsWhere (λ r, bool_decide (deliverdate r = d)) rs))
       <$> distinctNonEmpty deliverdate rs).

(** Modelled from the spec: the per-device sums of the absent
    [aggregateData]: one entry for every distinct device name. *)
Definition deviceTotals (rs : list PackingListItem) : list DeviceTotal.t :=
  (λ n, DeviceTotal.mk n (unitsWhere (λ r, bool_decide (DeviceName r = n)) rs))
    <$> remove_dups (DeviceName <$> rs).

(** Modelled from the spec: the full device ranking of the absent
    [aggregateData], before truncation. *)
Definition deviceRanking (rs : list PackingListItem) : list DeviceTotal.t :=
  merge_sort rankBefore (deviceTotals rs).

(** Modelled from the spec: the device ranking of the absent
    [aggregateData] (section 4.3): sums per distinct device name, sorted
    descending by sum, ties by name ascending, the top 10 kept. *)
Definition topDevicesOf (rs : list PackingListItem) : list DeviceTotal.t :=
  take topN (deviceRanking rs).

(** Modelled from the spec: the absent [aggregateData] of
    [services/dataService] (sections 3 and 4.3). *)
Definition aggregateData (rs : list PackingListItem) : AggregateResult.t :=
  {| AggregateResult.totalLines := length rs;
     AggregateResult.totalUnits := unitsWhere (λ _, true) rs;
     AggregateResult.uniqueSuppliers := length (distinctNonEmpty Suppliername rs);
     AggregateResult.uniqueCustomers := length (distinctNonEmpty customer rs);
     AggregateResult.timeSeries := timeSeriesOf rs;
     AggregateResult.topDevices := topDevicesOf rs |}.
End DataService.

(** ** Filter options (lines 57-58) *)

(** [Array.from(new Set(xs))]: the distinct values, each at the place of its
    first insertion. *)
Definition arrayFromSet (xs : list string) : list string :=
  fold_left (λ acc x, if decide (x ∈ acc) then acc else acc ++ [x]) xs [].

(** The order of [a.sort()] without a comparator, on strings: code unit by
    code unit. *)
Definition strLe (x y : string) : Prop := String.leb x y = true.

#[global] Instance strLe_dec x y : Decision (strLe x y).
Proof. unfold strLe. apply _. Defined.

(** [a.sort()]. The order is total and only equal strings tie, so the result
    does not depend on the sorting algorithm of the host. *)
Definition sortDefault (a : list string) : list string := merge_sort strLe a.

(** [Array.from(new Set(data.map(d => d.Suppliername))).sort()] *)
Definition uniqueSuppliers (data : list PackingListItem) : list string :=
  sortDefault (arrayFromSet ((λ d, Suppliername d) <$> data)).

(** [Array.from(new Set(data.map(d => d.DeviceName))).sort()] *)
Definition uniqueDevices (data : list PackingListItem) : list string :=
  sortDefault (arrayFromSet ((λ d, DeviceName d) <$> data)).

(** ** Data preview (line 386) *)

(** [filteredData.slice(0, 50)], one table row for each. *)
Definition previewRows (filteredData : list PackingListItem) : list PackingListItem :=
  slice 0 50 filteredData.

(** ** Node captions of [GraphComponent] (line 676) *)

(** [d.label.length > 10 ? d.label.substring(0,10)+'...' : d.label] *)
Definition caption (label : string) : string :=
  if 10 <? String.length label then String.substring 0 10 label +:+ "..." else label.

(** ** Usage log (lines 103-105) *)

(** [{ timestamp, event, details }] *)
Module UsageLog.
Record t := mk { timestamp : Z; event : string; details : string }.
End UsageLog.

(** [logEvent]: [setLogs(prev => [{ timestamp: Date.now(), event, details },
    ...prev])], with the reading [now] of the clock as an argument. *)
Definition logEvent (now : Z) (event details : string) (logs : list UsageLog.t)
  : list UsageLog.t :=
  UsageLog.mk now event details :: logs.

(** ** Style jackpot (lines 127-140) *)

(** [PainterStyle] of [./types], by the fields [App.tsx] reads. *)
Module PainterStyle.
Record colors := mkColors {
  primary : string; secondary : string; accent : string;
  bg : string; text : string; card : string
}.
Record t := mk { name : string; colors_of : colors }.
End PainterStyle.

(** The state the jackpot works on: [theme] ([None] is [undefined]),
    [isJackpotSpinning], [logs], and the timer with the [spins] counter of
    its callback ([None]: no timer is running). *)
Record Jackpot := {
  theme : option PainterStyle.t;
  isJackpotSpinning : bool;
  logs_of : list UsageLog.t;
  interval : option nat
}.

Section StyleJackpot.
(** The constant [PAINTER_STYLES] of [./constants]. *)
Variable PAINTER_STYLES : list PainterStyle.t.

(** [handleSpinJackpot]: [setIsJackpotSpinning(true); let spins = 0;] and the
    timer is started. The button that calls it is disabled while
    [isJackpotSpinning], so no earlier timer is running then. *)
Definition handleSpinJackpot (st : Jackpot) : Jackpot :=
  {| theme := theme st; isJackpotSpinning := true; logs_of := logs_of st;
     interval := Some 0 |}.

(** One run of the timer callback, [randomIdx] being
    [Math.floor(Math.random() * PAINTER_STYLES.length)] and [now] the clock.
    On the run that ends the spin, [PAINTER_STYLES[randomIdx].name] is read
    for the log; were the style [undefined] the callback would stop there
    with a TypeError, after the timer and the flag are reset and before
    anything is logged. *)
Definition tick (randomIdx : nat) (now : Z) (st : Jackpot) : Jackpot :=
  match interval st with
  | None => st
  | Some spins =>
      let style := PAINTER_STYLES !! randomIdx in
      let spins := S spins in
      if 10 <? spins then
        {| theme := style; isJackpotSpinning := false;
           logs_of :=
             match style with
             | Some s => logEvent now "Theme Change"
                           ("Spun to " +:+ PainterStyle.name s) (logs_of st)
             | None => logs_of st
             end;
           interval := None |}
      else
        {| theme := style; isJackpotSpinning := isJackpotSpinning st;
           logs_of := logs_of st; interval := Some spins |}
  end.

(** The timer firing again and again, with the draws and clock readings of
    each run. *)
Definition ticks (draws : list (nat * Z)) (st : Jackpot) : Jackpot :=
  fold_left (λ st d, tick d.1 d.2 st) draws st.
End StyleJackpot.

(** ** Agents (lines 54 and 61-82) *)

(** [AgentDef] of [./types], by the fields of lines 65-73; what the YAML
    document holds under a key is not typed ([val: any]), so the fields
    copied from it are values of the document. *)
Module AgentDef.
Record t (Yaml : Type) := mk {
  id : string;
  name : string;
  description : Yaml;
  llm_provider : Yaml;
  model : Yaml;
  capabilities : Yaml;
  system_prompt : Yaml
}.
Arguments mk {Yaml}.
Arguments id {Yaml}.
Arguments name {Yaml}.
Arguments description {Yaml}.
Arguments llm_provider {Yaml}.
Arguments model {Yaml}.
Arguments capabilities {Yaml}.
Arguments system_prompt {Yaml}.
End AgentDef.

(** [key.replace(/_/g, ' ')] *)
Fixpoint replaceUnderscores (key : string) : string :=
  match key with
  | EmptyString => EmptyString
  | String c rest =>
      String (if Ascii.eqb c "_"%char then " "%char else c) (replaceUnderscores rest)
  end.

(** [currentAgent]: [parsedAgents.find(a => a.id === selectedAgentId) ||
    parsedAgents[0]]. [None] is [undefined]; an agent found is an object,
    hence truthy. *)
Definition currentAgent {Yaml} (parsedAgents : list (AgentDef.t Yaml))
    (selectedAgentId : string) : option (AgentDef.t Yaml) :=
  match List.find (λ a, String.eqb (AgentDef.id a) selectedAgentId) parsedAgents with
  | Some a => Some a
  | None => parsedAgents !! 0
  end.

(** [parsedAgents] and [selectedAgentId]. *)
Record AgentState (Yaml : Type) := {
  parsedAgents : list (AgentDef.t Yaml);
  selectedAgentId : string
}.
Arguments parsedAgents {Yaml}.
Arguments selectedAgentId {Yaml}.

Section Agents.
(** The values of a loaded YAML document and what JavaScript does with
    them. *)
Variable Yaml : Type.
(** [yaml.load]; [None] when it throws. *)
Variable load : string → option Yaml.
(** Truthiness of a value. *)
Variable truthy : Yaml → bool.
(** Whether a value is [null] or [undefined], on which reading a property
    throws. *)
Variable nullish : Yaml → bool.
(** [v.p], for a value that is not nullish. *)
Variable prop : Yaml → string → Yaml.
(** [Object.entries(v)] *)
Variable entries : Yaml → list (string * Yaml).
(** The empty array [[]]. *)
Variable emptyArray : Yaml.
(** [s.toUpperCase()] *)
Variable toUpperCase : string → string.

(** The callback of [Object.entries(doc.agents).map(...)], lines 65-73;
    [None] when reading [val.description] throws. *)
Definition agentOfEntry (entry : string * Yaml) : option (AgentDef.t Yaml) :=
  let '(key, val) := entry in
  if nullish val then None
  else Some {| AgentDef.id := key;
               AgentDef.name := toUpperCase (replaceUnderscores key);
               AgentDef.description := prop val "description";
               AgentDef.llm_provider := prop val "llm_provider";
               AgentDef.model := prop val "model";
               AgentDef.capabilities :=
                 if truthy (prop val "capabilities")
                 then prop val "capabilities" else emptyArray;
               AgentDef.system_prompt := prop val "system_prompt" |}.

(** The list built on lines 65-73; [None] when the callback throws on some
    entry. *)
Definition agentsListOf (agents : Yaml) : option (list (AgentDef.t Yaml)) :=
  mapM agentOfEntry (entries agents).

(** The effect on [agentsYaml], lines 61-82. Whatever is thrown inside the
    [try] is caught and only reported on the console. *)
Definition agentsEffect (agentsYaml : string) (st : AgentState Yaml)
  : AgentState Yaml :=
  match load agentsYaml with
  | None => st
  | Some doc =>
      if truthy doc && truthy (prop doc "agents") then
        match agentsListOf (prop doc "agents") with
        | None => st
        | Some agentsList =>
            {| parsedAgents := agentsList;
               selectedAgentId :=
                 match agentsList with
                 | first :: _ =>
                     if bool_decide (selectedAgentId st = "")
                     then AgentDef.id first else selectedAgentId st
                 | [] => selectedAgentId st
                 end |}
        end
      else st
  end.
End Agents.

(** ** Chat (lines 165-211) *)

(** [ChatMessage] of [./types], by the fields of lines 168 and 200-206. *)
Module ChatMessage.
Inductive role := user | model.
Record t := mk {
  role_of : role;
  text : string;
  timestamp : Z;
  agentId : option string;
  modelUsed : option string
}.
End ChatMessage.

(** [chatMessages], [chatInput], [isChatLoading], and the usage log. *)
Record Chat := {
  chatMessages : list ChatMessage.t;
  chatInput : string;
  isChatLoading : bool;
  chatLogs : list UsageLog.t
}.

(** What the second half of [handleSendMessage] still holds of the render
    it was started in: [currentAgent] and [selectedModel]. *)
Record Pending (Yaml : Type) := {
  pendingAgent : AgentDef.t Yaml;
  pendingModel : string
}.
Arguments pendingAgent {Yaml}.
Arguments pendingModel {Yaml}.

Section ChatHandler.
Variable Yaml : Type.
(** [s.trim()] *)
Variable trim : string → string.

(** [handleSendMessage] up to its [await]: the guard, the user's message,
    the input cleared and the loading flag set. The prompt built on lines
    173-191 goes to the text service and nowhere else; the answer of the
    service is an argument of the second half. [None]: the handler returned
    at the guard. *)
Definition handleSendMessage_request (now : Z) (agents : AgentState Yaml)
    (selectedModel : string) (st : Chat) : Chat * option (Pending Yaml) :=
  match currentAgent (parsedAgents agents) (selectedAgentId agents) with
  | Some agent =>
      if bool_decide (trim (chatInput st) = "") then (st, None)
      else
        let userMsg := ChatMessage.mk ChatMessage.user (chatInput st) now None None in
        ({| chatMessages := chatMessages st ++ [userMsg];
            chatInput := "";
            isChatLoading := true;
            chatLogs := chatLogs st |},
         Some {| pendingAgent := agent; pendingModel := selectedModel |})
  | None => (st, None)
  end.

(** [handleSendMessage] after its [await], on the state of that moment:
    the answer is appended, the flag reset, the use logged. *)
Definition handleSendMessage_reply (p : Pending Yaml) (responseText : string)
    (now logged : Z) (st : Chat) : Chat :=
  let botMsg := ChatMessage.mk ChatMessage.model responseText now
                  (Some (AgentDef.id (pendingAgent p))) (Some (pendingModel p)) in
  {| chatMessages := chatMessages st ++ [botMsg];
     chatInput := chatInput st;
     isChatLoading := false;
     chatLogs := logEvent logged "Agent Chat"
                   ("Used " +:+ AgentDef.name (pendingAgent p) +:+ " with "
                    +:+ pendingModel p) (chatLogs st) |}.

(** A whole run with nothing happening in between; [response] is [None]
    when the promise of the service is rejected, which ends the handler at
    its [await]. *)
Definition handleSendMessage (now : Z) (agents : AgentState Yaml)
    (selectedModel : string) (response : option string) (later logged : Z)
    (st : Chat) : Chat :=
  match handleSendMessage_request now agents selectedModel st with
  | (st', Some p) =>
      match response with
      | Some responseText => handleSendMessage_reply p responseText later logged st'
      | None => st'
      end
  | (st', None) => st'
  end.
End ChatHandler.

(** ** Sample records *)

Definition item (s d c : string) (q : Z) (day : string) : PackingListItem :=
  {| Suppliername := s; deliverdate := day; customer := c;
     DeviceName := d; Numbers := q; ModelNum := "M-1" |}.

(** A date reader good enough for the samples: only the two days below are
    dates. *)
Definition sampleDate (s : string) : option Z :=
  if decide (s = "2024-01-01") then Some 1%Z
  else if decide (s = "2024-01-02") then Some 2%Z
  else None.


(** A small document type for the samples: text, [null], and mappings in
    the order of their keys. *)
#[warnings="-register-all"] Inductive SampleYaml :=
| YNull
| YText (s : string)
| YMap (kvs : list (string * SampleYaml)).

Definition sampleTruthy (v : SampleYaml) : bool :=
  match v with
  | YNull => false
  | YText s => negb (bool_decide (s = ""))
  | YMap _ => true
  end.

Definition sampleNullish (v : SampleYaml) : bool :=
  match v with YNull => true | _ => false end.

Definition sampleProp (v : SampleYaml) (p : string) : SampleYaml :=
  match v with
  | YMap kvs => default YNull (snd <$> List.find (λ kv, String.eqb kv.1 p) kvs)
  | _ => YNull
  end.

Definition sampleEntries (v : SampleYaml) : list (string * SampleYaml) :=
  match v with YMap kvs => kvs | _ => [] end.

(** A loader that knows one document. *)
Definition sampleLoad (text : string) : option SampleYaml :=
  if bool_decide (text = "agents: {data_analyst: {model: m1}, risk_officer: {model: m2}}")
  then Some (YMap [("agents",
                    YMap [("data_analyst", YMap [("model", YText "m1")]);
                          ("risk_officer", YMap [("model", YText "m2")])])])
  else None.

(** Trimming of spaces, for the samples. *)
Fixpoint dropSpaces (s : string) : string :=
  match s with
  | String " " rest => dropSpaces rest
  | _ => s
  end.

Definition sampleTrim (s : string) : string :=
  String.rev (dropSpaces (String.rev (dropSpaces s))).

Definition sampleAgent (key : string) : AgentDef.t SampleYaml :=
  AgentDef.mk key key YNull YNull YNull YNull YNull.

(** * Properties of the graph builder *)

(** ** The loop, step by step *)

Lemma pushNode_links n st : links (pushNode n st) = links st.
Proof. unfold pushNode. by case_decide. Qed.

Lemma pushAll_links ns st : links (pushAll ns st) = links st.
Proof.
  revert st. induction ns as [|n ns IH]; intros st; [done|].
  cbn. unfold pushAll in IH. by rewrite IH, pushNode_links.
Qed.

Lemma pushAll_app ns ms st : pushAll (ns ++ ms) st = pushAll ms (pushAll ns st).
Proof. apply fold_left_app. Qed.

(** The nodes pushed do not depend on the links gathered so far. *)
Lemma pushNode_pushLink n l st :
  pushNode n (pushLink l st) = pushLink l (pushNode n st).
Proof. unfold pushNode, pushLink. cbn. by case_decide. Qed.

Lemma pushAll_pushLink ns l st :
  pushAll ns (pushLink l st) = pushLink l (pushAll ns st).
Proof.
  revert st. induction ns as [|n ns IH]; intros st; [done|].
  cbn. rewrite pushNode_pushLink. apply IH.
Qed.

(** One turn of the loop: look at the three nodes, then push the two links. *)
Lemma forEach_body_unfold st d :
  forEach_body st d =
  pushLink (Link.mk (tag Group.device +:+ DeviceName d)
                    (tag Group.customer +:+ customer d) (Numbers d))
    (pushLink (Link.mk (tag Group.supplier +:+ Suppliername d)
                       (tag Group.device +:+ DeviceName d) 1%Z)
       (pushAll (recordNodes d) st)).
Proof. reflexivity. Qed.

(** The whole loop: the nodes are those of pushing every candidate in
    scanning order, the links are appended record by record. *)
Lemma forEach_spec rs st :
  fold_left forEach_body rs st =
  {| nodes := nodes (pushAll (candidates rs) st);
     links := links st ++ (rs ≫= recordLinks);
     nodeSet := nodeSet (pushAll (candidates rs) st) |}.
Proof.
  revert st. induction rs as [|d rs IH]; intros st.
  - cbn. rewrite app_nil_r. by destruct st.
  - cbn [fold_left]. rewrite IH, forEach_body_unfold.
    unfold candidates. rewrite !bind_cons, !pushAll_pushLink, pushAll_app.
    unfold pushLink at 1 2 3 4 5 6. cbn [nodes links nodeSet].
    rewrite pushAll_links. f_equal.
    by rewrite <- !app_assoc.
Qed.

(** Pushing nodes keeps, of the new ones, the first of every id not yet in
    the set. *)
Lemma pushAll_nodes ns st :
  nodes (pushAll ns st) =
  nodes st ++ filter (λ m, Node.id m ∉ nodeSet st) (firstSeen ns).
Proof.
  revert st. induction ns as [|n ns IH]; intros st.
  - cbn. by rewrite app_nil_r.
  - change (pushAll (n :: ns) st) with (pushAll ns (pushNode n st)).
    rewrite IH. unfold pushNode. cbn [firstSeen].
    case_decide as Hin; cbn [nodes nodeSet].
    + rewrite filter_cons_False by (intros Hn; by apply Hn).
      f_equal. rewrite list_filter_filter. apply list_filter_iff.
      intros m. cbn. split; [|by intros [? _]]. intros Hm. split; [done|].
      intros Heq. apply Hm. by rewrite Heq.
    + rewrite filter_cons_True by done.
      rewrite <- app_assoc. cbn [app]. do 2 f_equal.
      rewrite list_filter_filter. apply list_filter_iff.
      intros m. cbn. rewrite not_elem_of_union, not_elem_of_singleton. tauto.
Qed.

(** [a.slice(0, 100)] is the prefix of the first 100 elements. *)
Lemma slice_0 {A} n (a : list A) : slice 0 n a = take n a.
Proof. unfold slice. by rewrite Nat.sub_0_r. Qed.

(** What [renderForceGraph] returns, in closed form. *)
Lemma renderForceGraph_spec rs :
  renderForceGraph rs =
  match rs with
  | [] => None
  | _ => Some (GraphComponent.mk (firstSeen (candidates (take 100 rs)))
                                 (take 100 rs ≫= recordLinks))
  end.
Proof.
  destruct rs as [|d rs]; [done|].
  unfold renderForceGraph. cbn [length Nat.eqb]. cbv zeta.
  rewrite slice_0, forEach_spec. cbn [nodes links].
  rewrite pushAll_nodes. cbn [nodes nodeSet app]. do 2 f_equal.
  induction (firstSeen _) as [|m l IH]; [done|].
  rewrite filter_cons_True by set_solver. by rewrite IH.
Qed.

Lemma producedNodes_spec rs : producedNodes rs = firstSeen (candidates (take 100 rs)).
Proof. unfold producedNodes. rewrite renderForceGraph_spec. by destruct rs. Qed.

Lemma producedLinks_spec rs : producedLinks rs = take 100 rs ≫= recordLinks.
Proof. unfold producedLinks. rewrite renderForceGraph_spec. by destruct rs. Qed.

(** A graph is returned for every collection but the empty one. *)
Lemma renderForceGraph_returns rs :
  renderForceGraph rs =
  match rs with
  | [] => None
  | _ :: _ => Some (GraphComponent.mk (producedNodes rs) (producedLinks rs))
  end.
Proof.
  rewrite producedNodes_spec, producedLinks_spec, renderForceGraph_spec.
  by destruct rs.
Qed.

(** ** First occurrences *)

Lemma firstSeen_elem_of n l : n ∈ firstSeen l → n ∈ l.
Proof.
  induction l as [|m l IH]; cbn; [done|].
  rewrite !elem_of_cons, list_elem_of_filter. intros [?|[_ ?]]; auto.
Qed.

(** No id is lost. *)
Lemma firstSeen_ids l i : i ∈ Node.id <$> firstSeen l ↔ i ∈ Node.id <$> l.
Proof.
  split.
  - intros (n & -> & Hn)%list_elem_of_fmap.
    apply list_elem_of_fmap_2. by apply firstSeen_elem_of.
  - induction l as [|m l IH]; [done|].
    cbn [firstSeen fmap list_fmap]. rewrite !elem_of_cons.
    destruct (decide (i = Node.id m)) as [->|Hne]; [by left|].
    intros [?|Hi]; [done|]. right.
    apply IH in Hi as (n & -> & Hn)%list_elem_of_fmap.
    apply list_elem_of_fmap_2, list_elem_of_filter. done.
Qed.

(** Every id is kept once. *)
Lemma firstSeen_NoDup l : NoDup (Node.id <$> firstSeen l).
Proof.
  induction l as [|m l IH]; cbn [firstSeen fmap list_fmap]; [constructor|].
  apply NoDup_cons. split.
  - intros (n & Heq & [Hn _]%list_elem_of_filter)%list_elem_of_fmap. by apply Hn.
  - apply (sublist_NoDup _ (Node.id <$> firstSeen l)); [exact IH|].
    apply fmap_sublist, sublist_filter.
Qed.

Lemma StronglySorted_fmap_filter {A B} (R : relation B) (f : A → B)
    (P : A → Prop) `{!∀ x, Decision (P x)} (l : list A) :
  StronglySorted R (f <$> l) → StronglySorted R (f <$> filter P l).
Proof.
  induction l as [|x l IH]; [done|].
  cbn [fmap list_fmap]. intros [Hl Hx]%StronglySorted_inv.
  rewrite filter_cons. case_decide; [|by apply IH].
  cbn [fmap list_fmap]. constructor; [by apply IH|].
  rewrite Forall_forall in Hx |- *.
  intros y (z & -> & [_ Hz]%list_elem_of_filter)%list_elem_of_fmap.
  apply Hx. by apply list_elem_of_fmap_2.
Qed.

(** The kept nodes come in the order of their first occurrence. *)
Lemma firstSeen_sorted l :
  StronglySorted lt ((λ n, firstPos (Node.id n) (Node.id <$> l)) <$> firstSeen l).
Proof.
  induction l as [|m l IH]; cbn [firstSeen fmap list_fmap]; [constructor|].
  assert (Heq : (λ n, firstPos (Node.id n) (Node.id m :: (Node.id <$> l)))
                  <$> filter (λ n, Node.id n ≠ Node.id m) (firstSeen l) =
                S <$> ((λ n, firstPos (Node.id n) (Node.id <$> l))
                  <$> filter (λ n, Node.id n ≠ Node.id m) (firstSeen l))).
  { rewrite <- list_fmap_compose. apply Forall_fmap_ext_1, Forall_forall.
    intros n [Hn _]%list_elem_of_filter. cbn. by rewrite decide_False. }
  rewrite Heq. cbn [firstPos]. rewrite decide_True by done. constructor.
  - apply (StronglySorted_fmap S lt lt); [lia|].
    by apply StronglySorted_fmap_filter.
  - apply Forall_fmap, Forall_forall. intros; cbn; lia.
Qed.

(** ** Ids and candidates *)

(** The id tells the group and the raw value: the three prefixes differ in
    their first character. *)
Lemma tag_inj g1 g2 v1 v2 :
  tag g1 +:+ v1 = tag g2 +:+ v2 → g1 = g2 ∧ v1 = v2.
Proof. destruct g1, g2; cbn; intros H; by simplify_eq. Qed.

Lemma elem_of_recordNodes n d : n ∈ recordNodes d ↔ ∃ grp, n = nodeOf grp d.
Proof.
  unfold recordNodes. rewrite !elem_of_cons, elem_of_nil. split.
  - intros [->|[->|[->|[]]]]; eauto.
  - intros [[] ->]; auto.
Qed.

Lemma elem_of_candidates n rs :
  n ∈ candidates rs ↔ ∃ d grp, d ∈ rs ∧ n = nodeOf grp d.
Proof.
  unfold candidates. rewrite list_elem_of_bind. split.
  - intros (d & (grp & ->)%elem_of_recordNodes & Hd). eauto.
  - intros (d & grp & Hd & ->). exists d. split; [|done].
    apply elem_of_recordNodes. eauto.
Qed.

(** Among the candidates the id determines the node. *)
Lemma candidates_id_inj rs n m :
  n ∈ candidates rs → m ∈ candidates rs → Node.id n = Node.id m → n = m.
Proof.
  intros (d & g & _ & ->)%elem_of_candidates (d' & g' & _ & ->)%elem_of_candidates.
  cbn. intros [-> Hv]%tag_inj. unfold nodeOf. by rewrite Hv.
Qed.

(** Where the id determines the node, no node is lost either. *)
Lemma firstSeen_complete l n :
  (∀ a b, a ∈ l → b ∈ l → Node.id a = Node.id b → a = b) →
  n ∈ l → n ∈ firstSeen l.
Proof.
  intros Hinj Hn.
  assert (Hid : Node.id n ∈ Node.id <$> firstSeen l).
  { apply firstSeen_ids. by apply list_elem_of_fmap_2. }
  apply list_elem_of_fmap in Hid as (m & Heq & Hm).
  rewrite (Hinj n m); auto using firstSeen_elem_of.
Qed.

Lemma elem_of_producedNodes rs n :
  n ∈ producedNodes rs ↔ n ∈ candidates (take 100 rs).
Proof.
  rewrite producedNodes_spec. split; [apply firstSeen_elem_of|].
  apply firstSeen_complete. apply candidates_id_inj.
Qed.

Lemma producedNodes_NoDup_ids rs : NoDup (Node.id <$> producedNodes rs).
Proof. rewrite producedNodes_spec. apply firstSeen_NoDup. Qed.

(** A filter that singles out one element of a duplicate-free list. *)
Lemma filter_single {A} (P : A → Prop) `{!∀ x, Decision (P x)} (l : list A) x :
  NoDup l → x ∈ l → P x → (∀ y, y ∈ l → P y → y = x) → filter P l = [x].
Proof.
  intros Hnd Hx HP Huniq. apply Permutation_singleton_r, NoDup_Permutation.
  - by apply NoDup_filter.
  - apply NoDup_singleton.
  - intros y. rewrite list_elem_of_filter, list_elem_of_singleton.
    split; [intros [? ?]; auto|]. by intros ->.
Qed.

(** The links of the record at position [i] sit at positions [2i] and
    [2i+1]. *)
Lemma lookup_recordLinks rs i d :
  rs !! i = Some d →
  (rs ≫= recordLinks) !! (2 * i) = recordLinks d !! 0 ∧
  (rs ≫= recordLinks) !! (2 * i + 1) = recordLinks d !! 1.
Proof.
  revert i. induction rs as [|r rs IH]; intros i Hi; [done|].
  rewrite bind_cons. destruct i as [|i].
  - by simplify_eq/=.
  - cbn in Hi. apply IH in Hi as [H0 H1].
    replace (2 * S i) with (S (S (2 * i))) by lia.
    replace (S (S (2 * i)) + 1) with (S (S (2 * i + 1))) by lia.
    done.
Qed.

Lemma length_recordLinks rs : length (rs ≫= recordLinks) = 2 * length rs.
Proof.
  induction rs as [|r rs IH]; [done|].
  rewrite bind_cons, length_app, IH. cbn. lia.
Qed.

(** * The claims about the graph builder *)

(** C1. The graph is derived from the first 100 records only: the links
    produced are the links of the records of the prefix of length
    [min 100 (length rs)], two for each, and the call as a whole returns what
    it returns on that prefix. The links produced are those of the graph
    returned, which exists for every collection but the empty one; there the
    call returns [null], which carries no link. *)
Theorem graph_cap rs :
  producedLinks rs = take (min 100 (length rs)) rs ≫= recordLinks ∧
  length (producedLinks rs) = 2 * min 100 (length rs) ∧
  renderForceGraph rs = renderForceGraph (take 100 rs) ∧
  renderForceGraph rs =
    match rs with
    | [] => None
    | _ :: _ => Some (GraphComponent.mk (producedNodes rs) (producedLinks rs))
    end.
Proof.
  assert (Htake : take (min 100 (length rs)) rs = take 100 rs).
  { destruct (decide (100 ≤ length rs)).
    - by rewrite Nat.min_l.
    - rewrite Nat.min_r by lia. rewrite !take_ge; [done|lia..]. }
  rewrite Htake, producedLinks_spec. split_and!.
  - done.
  - by rewrite length_recordLinks, length_take.
  - rewrite !renderForceGraph_spec, take_take. by destruct rs.
  - rewrite <- producedLinks_spec. apply renderForceGraph_returns.
Qed.

(** C3. Every record of the prefix contributes its two links, in order and
    without any merging: the links are the concatenation, record by record,
    of the supplier-to-device link of weight 1 and the device-to-customer
    link weighted by the quantity; the record at position [i] owns the
    links at positions [2i] and [2i+1], and a record given twice yields its
    links twice. *)
Theorem two_links_per_record rs :
  producedLinks rs =
    take 100 rs ≫= (λ d,
      [Link.mk ("SUP:" +:+ Suppliername d) ("DEV:" +:+ DeviceName d) 1%Z;
       Link.mk ("DEV:" +:+ DeviceName d) ("CUST:" +:+ customer d) (Numbers d)]) ∧
  length (producedLinks rs) = 2 * length (take 100 rs) ∧
  (∀ i d, take 100 rs !! i = Some d →
     producedLinks rs !! (2 * i) =
       Some (Link.mk ("SUP:" +:+ Suppliername d) ("DEV:" +:+ DeviceName d) 1%Z) ∧
     producedLinks rs !! (2 * i + 1) =
       Some (Link.mk ("DEV:" +:+ DeviceName d) ("CUST:" +:+ customer d) (Numbers d))) ∧
  (∀ d, producedLinks [d; d] = recordLinks d ++ recordLinks d).
Proof.
  rewrite producedLinks_spec. split_and!.
  - done.
  - apply length_recordLinks.
  - intros i d Hi. by apply lookup_recordLinks in Hi as [-> ->].
  - intros d. by rewrite producedLinks_spec.
Qed.

Lemma two_links_per_record_witness :
  producedLinks [item "S" "D" "C" 4 ""; item "S" "D" "C" 4 ""] !! 2 =
    Some (Link.mk "SUP:S" "DEV:D" 1%Z) ∧
  producedLinks [item "S" "D" "C" 4 ""; item "S" "D" "C" 4 ""] !! 3 =
    Some (Link.mk "DEV:D" "CUST:C" 4%Z).
Proof.
  destruct (two_links_per_record
              [item "S" "D" "C" 4 ""; item "S" "D" "C" 4 ""]) as (_ & _ & Hpos & _).
  apply (Hpos 1 (item "S" "D" "C" 4 "")). reflexivity.
Defined.

(** C9. No link dangles: the source and the target of every link produced
    are ids of nodes produced. *)
Theorem links_refer_to_nodes rs :
  Forall (λ l, Link.source l ∈ Node.id <$> producedNodes rs ∧
               Link.target l ∈ Node.id <$> producedNodes rs)
         (producedLinks rs).
Proof.
  apply Forall_forall. intros l. rewrite producedLinks_spec.
  intros (d & Hl & Hd)%list_elem_of_bind.
  assert (Hn : ∀ grp, Node.id (nodeOf grp d) ∈ Node.id <$> producedNodes rs).
  { intros grp. apply list_elem_of_fmap_2, elem_of_producedNodes.
    apply elem_of_candidates. eauto. }
  unfold recordLinks in Hl. rewrite !elem_of_cons, elem_of_nil in Hl.
  destruct Hl as [->|[->|[]]]; cbn [Link.source Link.target]; split; apply Hn.
Qed.

(** The node a record of the prefix asks for is the only node produced
    for its group and raw value. *)
Lemma produced_node_of_record rs d grp :
  d ∈ take 100 rs →
  filter (λ n, Node.group n = grp ∧ Node.label n = field grp d) (producedNodes rs)
  = [nodeOf grp d].
Proof.
  intros Hd. apply filter_single.
  - eapply NoDup_fmap_1, producedNodes_NoDup_ids.
  - apply elem_of_producedNodes, elem_of_candidates. eauto.
  - done.
  - intros n (d' & g' & _ & ->)%elem_of_producedNodes%elem_of_candidates.
    cbn. intros [-> Hv]. unfold nodeOf. by rewrite Hv.
Qed.

(** C2. Nodes are deduplicated by the composite id: no id occurs twice among
    the nodes produced; every node's id is its group's prefix followed by its
    label; for every record of the prefix and every group there is exactly
    one node with that group and that raw value, however many records carry
    it; and the composite ids of two references agree only when both the
    group and the raw value agree, so one raw string met in two groups gives
    two nodes. *)
Theorem nodes_dedup_by_composite_id rs :
  NoDup (Node.id <$> producedNodes rs) ∧
  Forall (λ n, Node.id n = tag (Node.group n) +:+ Node.label n) (producedNodes rs) ∧
  Forall (λ d, ∀ grp,
            filter (λ n, Node.group n = grp ∧ Node.label n = field grp d)
                   (producedNodes rs) = [nodeOf grp d])
         (take 100 rs) ∧
  (∀ g1 g2 v1 v2, tag g1 +:+ v1 = tag g2 +:+ v2 ↔ g1 = g2 ∧ v1 = v2).
Proof.
  split_and!.
  - apply producedNodes_NoDup_ids.
  - apply Forall_forall.
    by intros n (d & g & _ & ->)%elem_of_producedNodes%elem_of_candidates.
  - apply Forall_forall. intros d Hd grp. by apply produced_node_of_record.
  - intros g1 g2 v1 v2. split; [apply tag_inj|]. by intros [-> ->].
Qed.

(** The same raw string as a supplier and as a customer: two nodes. *)
Example acme_twice :
  producedNodes [item "Acme" "Pump" "Acme" 5 "2024-01-01"] =
  [Node.mk "SUP:Acme" Group.supplier "Acme";
   Node.mk "DEV:Pump" Group.device "Pump";
   Node.mk "CUST:Acme" Group.customer "Acme"].
Proof. reflexivity. Qed.

(** The spec's own example of deduplication: 4 nodes, 4 links. *)
Example dedup_example :
  renderForceGraph [item "A" "X" "C1" 1 ""; item "A" "X" "C2" 2 ""] =
  Some (GraphComponent.mk
          [Node.mk "SUP:A" Group.supplier "A"; Node.mk "DEV:X" Group.device "X";
           Node.mk "CUST:C1" Group.customer "C1"; Node.mk "CUST:C2" Group.customer "C2"]
          [Link.mk "SUP:A" "DEV:X" 1; Link.mk "DEV:X" "CUST:C1" 1;
           Link.mk "SUP:A" "DEV:X" 1; Link.mk "DEV:X" "CUST:C2" 2]).
Proof. reflexivity. Qed.

(** C8. The nodes come in first-seen order: they are the first occurrences,
    by id, of the node references met when the prefix is scanned in input
    order, supplier then device then customer within a record. Put
    otherwise: the nodes produced are the references of the prefix, none
    twice, ordered by the position at which their id is first referred to.
    (The builder reads nothing but its argument, so a second run on the same
    input is the same computation.) *)
Theorem nodes_in_first_seen_order rs :
  producedNodes rs = firstSeen (candidates (take 100 rs)) ∧
  (∀ n, n ∈ producedNodes rs ↔ n ∈ candidates (take 100 rs)) ∧
  NoDup (producedNodes rs) ∧
  StronglySorted lt
    ((λ n, firstPos (Node.id n) (Node.id <$> candidates (take 100 rs)))
       <$> producedNodes rs).
Proof.
  split_and!.
  - apply producedNodes_spec.
  - apply elem_of_producedNodes.
  - eapply NoDup_fmap_1, producedNodes_NoDup_ids.
  - rewrite producedNodes_spec. apply firstSeen_sorted.
Qed.

(** A supplier seen again after two other records keeps its first place. *)
Example first_seen_example :
  producedNodes [item "B" "X" "C" 1 ""; item "A" "Y" "C" 1 ""; item "B" "Y" "D" 1 ""] =
  [Node.mk "SUP:B" Group.supplier "B"; Node.mk "DEV:X" Group.device "X";
   Node.mk "CUST:C" Group.customer "C"; Node.mk "SUP:A" Group.supplier "A";
   Node.mk "DEV:Y" Group.device "Y"; Node.mk "CUST:D" Group.customer "D"].
Proof. reflexivity. Qed.

(** C5, as worded, fails: the id of the node of supplier "Acme" is
    ["SUP:Acme"], and no node produced has the id ["supplier:Acme"]. *)
Lemma supplier_id_is_not_spec_tagged :
  item "Acme" "Pump" "Clinic" 5 "2024-01-01"
    ∈ take 100 [item "Acme" "Pump" "Clinic" 5 "2024-01-01"] ∧
  producedNodes [item "Acme" "Pump" "Clinic" 5 "2024-01-01"] =
    [Node.mk "SUP:Acme" Group.supplier "Acme";
     Node.mk "DEV:Pump" Group.device "Pump";
     Node.mk "CUST:Clinic" Group.customer "Clinic"] ∧
  ¬ ∃ n, n ∈ producedNodes [item "Acme" "Pump" "Clinic" 5 "2024-01-01"] ∧
         Node.id n = specTag Group.supplier +:+ "Acme".
Proof.
  split_and!.
  - cbn. apply list_elem_of_here.
  - reflexivity.
  - intros (n & Hn & Hid).
    change (producedNodes _) with
      [Node.mk "SUP:Acme" Group.supplier "Acme";
       Node.mk "DEV:Pump" Group.device "Pump";
       Node.mk "CUST:Clinic" Group.customer "Clinic"] in Hn.
    rewrite !elem_of_cons, elem_of_nil in Hn.
    destruct Hn as [->|[->|[->|[]]]]; discriminate Hid.
Qed.

(** C5, amended. The id of every node produced is the literal [SUP:], [DEV:]
    or [CUST:], according to its group, followed by its label, and every
    record of the prefix has its three nodes, of ids [SUP:] + supplier name,
    [DEV:] + device name and [CUST:] + customer, among the nodes produced. *)
Theorem node_ids_are_prefixed rs :
  Forall (λ n, Node.id n =
               match Node.group n with
               | Group.supplier => "SUP:"
               | Group.device => "DEV:"
               | Group.customer => "CUST:"
               end +:+ Node.label n)
         (producedNodes rs) ∧
  Forall (λ d,
            Node.mk ("SUP:" +:+ Suppliername d) Group.supplier (Suppliername d)
              ∈ producedNodes rs ∧
            Node.mk ("DEV:" +:+ DeviceName d) Group.device (DeviceName d)
              ∈ producedNodes rs ∧
            Node.mk ("CUST:" +:+ customer d) Group.customer (customer d)
              ∈ producedNodes rs)
         (take 100 rs).
Proof.
  split.
  - apply Forall_forall.
    intros n (d & g & _ & ->)%elem_of_producedNodes%elem_of_candidates.
    by destruct g.
  - apply Forall_forall. intros d Hd.
    split_and!; apply elem_of_producedNodes, elem_of_candidates.
    + by exists d, Group.supplier.
    + by exists d, Group.device.
    + by exists d, Group.customer.
Qed.

(** * Properties of the filter and aggregation engines *)

(** Records with an empty value in a column do not count among its distinct
    non-empty values. *)
Lemma distinctNonEmpty_filter (col : PackingListItem → string) rs :
  distinctNonEmpty col rs = distinctNonEmpty col (filter (λ r, col r ≠ "") rs).
Proof.
  unfold distinctNonEmpty. f_equal.
  induction rs as [|r rs IH]; [done|].
  cbn [fmap list_fmap]. rewrite (filter_cons (λ r, col r ≠ "")), filter_cons.
  case_decide; cbn [fmap list_fmap].
  - rewrite filter_cons_True by done. by rewrite IH.
  - done.
Qed.

Lemma distinctNonEmpty_spec (col : PackingListItem → string) rs v :
  v ∈ distinctNonEmpty col rs ↔ v ≠ "" ∧ v ∈ col <$> rs.
Proof.
  unfold distinctNonEmpty. by rewrite elem_of_remove_dups, list_elem_of_filter.
Qed.

(** [unitsWhere] is the sum of the quantities of the records kept. *)
Lemma unitsWhere_from (keep : PackingListItem → bool) rs (a : Z) :
  fold_left (λ acc r, if keep r then (acc + Numbers r)%Z else acc) rs a =
  (a + foldr Z.add 0%Z (Numbers <$> filter (λ r, keep r = true) rs))%Z.
Proof.
  revert a. induction rs as [|r rs IH]; intros a; cbn [fold_left].
  - cbn. lia.
  - rewrite IH. destruct (keep r) eqn:Hr.
    + rewrite filter_cons_True by done. cbn [fmap list_fmap foldr]. lia.
    + rewrite filter_cons_False by by rewrite Hr. done.
Qed.

Lemma unitsWhere_sum (keep : PackingListItem → bool) rs :
  unitsWhere keep rs =
  foldr Z.add 0%Z (Numbers <$> filter (λ r, keep r = true) rs).
Proof. unfold unitsWhere. by rewrite unitsWhere_from. Qed.

(** C10. Empty values are not left out of the graph. A record of the prefix
    whose field for a group is the empty string has a node there, the only
    node of that group with an empty label, its id the bare prefix; the two
    links of the record are produced as for any other record. The distinct
    counts of the aggregation engine, for their part, are those of the
    records with a non-empty supplier, respectively customer. *)
Theorem empty_values_kept (parseDate : string → option Z) rs i d grp :
  rs !! i = Some d → i < 100 → field grp d = "" →
  filter (λ n, Node.group n = grp ∧ Node.label n = "") (producedNodes rs)
    = [Node.mk (tag grp) grp ""] ∧
  producedLinks rs !! (2 * i) =
    Some (Link.mk ("SUP:" +:+ Suppliername d) ("DEV:" +:+ DeviceName d) 1%Z) ∧
  producedLinks rs !! (2 * i + 1) =
    Some (Link.mk ("DEV:" +:+ DeviceName d) ("CUST:" +:+ customer d) (Numbers d)) ∧
  AggregateResult.uniqueSuppliers (aggregateData parseDate rs) =
    AggregateResult.uniqueSuppliers
      (aggregateData parseDate (filter (λ r, Suppliername r ≠ "") rs)) ∧
  AggregateResult.uniqueCustomers (aggregateData parseDate rs) =
    AggregateResult.uniqueCustomers
      (aggregateData parseDate (filter (λ r, customer r ≠ "") rs)).
Proof.
  intros Hi Hlt Hempty.
  assert (Hd : take 100 rs !! i = Some d) by by rewrite lookup_take_lt.
  split_and!.
  - pose proof (produced_node_of_record rs d grp
                  (list_elem_of_lookup_2 _ _ _ Hd)) as Hone.
    unfold nodeOf in Hone. rewrite Hempty in Hone. rewrite Hone.
    by destruct grp.
  - rewrite producedLinks_spec. by apply lookup_recordLinks in Hd as [-> _].
  - rewrite producedLinks_spec. by apply lookup_recordLinks in Hd as [_ ->].
  - cbn. by rewrite <- distinctNonEmpty_filter.
  - cbn. by rewrite <- distinctNonEmpty_filter.
Qed.

Lemma empty_values_kept_witness :
  filter (λ n, Node.group n = Group.supplier ∧ Node.label n = "")
         (producedNodes [item "" "D1" "" 4 ""; item "" "D2" "K" 6 ""])
    = [Node.mk "SUP:" Group.supplier ""] ∧
  producedLinks [item "" "D1" "" 4 ""; item "" "D2" "K" 6 ""] !! 2 =
    Some (Link.mk "SUP:" "DEV:D2" 1%Z) ∧
  producedLinks [item "" "D1" "" 4 ""; item "" "D2" "K" 6 ""] !! 3 =
    Some (Link.mk "DEV:D2" "CUST:K" 6%Z) ∧
  AggregateResult.uniqueSuppliers
    (aggregateData sampleDate [item "" "D1" "" 4 ""; item "" "D2" "K" 6 ""]) =
    AggregateResult.uniqueSuppliers (aggregateData sampleDate []) ∧
  AggregateResult.uniqueCustomers
    (aggregateData sampleDate [item "" "D1" "" 4 ""; item "" "D2" "K" 6 ""]) =
    AggregateResult.uniqueCustomers
      (aggregateData sampleDate [item "" "D2" "K" 6 ""]).
Proof.
  apply (empty_values_kept sampleDate
           [item "" "D1" "" 4 ""; item "" "D2" "K" 6 ""] 1
           (item "" "D2" "K" 6 "") Group.supplier).
  - reflexivity.
  - lia.
  - reflexivity.
Defined.

(** Two records with no supplier: one node ["SUP:"], no supplier counted. *)
Example empty_supplier_example :
  producedNodes [item "" "D1" "C" 4 ""; item "" "D2" "C" 6 ""] =
    [Node.mk "SUP:" Group.supplier ""; Node.mk "DEV:D1" Group.device "D1";
     Node.mk "CUST:C" Group.customer "C"; Node.mk "DEV:D2" Group.device "D2"] ∧
  AggregateResult.uniqueSuppliers
    (aggregateData sampleDate [item "" "D1" "C" 4 ""; item "" "D2" "C" 6 ""]) = 0.
Proof. split; reflexivity. Qed.

(** ** Filter *)

(** An unset criterion lets every value through. *)
Lemma matchesText_wildcard (parseDate : string → option Z) v :
  matchesText "" v = true ∧ boundHolds parseDate true "" v = true
  ∧ boundHolds parseDate false "" v = true.
Proof. done. Qed.

(** C6. Filter identity: with every criterion unset (empty supplier, empty
    device, no start date, no end date) the filter returns the collection it
    was given, same records in the same order. *)
Theorem filter_identity (parseDate : string → option Z) rs :
  filterData parseDate rs (DataFilters.mk "" "" "" "") = rs.
Proof.
  unfold filterData.
  cbn [DataFilters.supplier DataFilters.device DataFilters.startDate
       DataFilters.endDate].
  induction rs as [|r rs IH]; [done|].
  cbn [List.filter].
  destruct (matchesText_wildcard parseDate (Suppliername r)) as (-> & _ & _).
  destruct (matchesText_wildcard parseDate (DeviceName r)) as (-> & _ & _).
  destruct (matchesText_wildcard parseDate (deliverdate r)) as (_ & -> & ->).
  cbn [andb]. by rewrite IH.
Qed.

(** Unset criteria keep a record whose date cannot be read; a start date
    drops it. *)
Example filter_example :
  filterData sampleDate
    [item "S1" "D1" "C" 3 "2024-01-02"; item "S2" "D2" "C" 3 "2024-01-01";
     item "S1" "D0" "C" 3 "soon"]
    (DataFilters.mk "" "" "2024-01-02" "") =
  [item "S1" "D1" "C" 3 "2024-01-02"].
Proof. reflexivity. Qed.

(** ** Ranking order *)

Lemma string_leb_iff a b :
  String.leb a b = true ↔ a = b ∨ OrderedTypeEx.String_as_OT.lt a b.
Proof.
  unfold String.leb.
  pose proof (OrderedTypeEx.String_as_OT.cmp_eq a b) as Heq.
  pose proof (OrderedTypeEx.String_as_OT.cmp_lt a b) as Hlt.
  pose proof (OrderedTypeEx.String_as_OT.lt_not_eq a b) as Hne.
  unfold OrderedTypeEx.String_as_OT.cmp, OrderedTypeEx.String_as_OT.eq in *.
  destruct (String.compare a b) eqn:Hc.
  - split; [|done]. intros _. left. by apply Heq.
  - split; [|done]. intros _. right. by apply Hlt.
  - split; [done|]. intros [E|L].
    + apply Heq in E. discriminate.
    + apply Hlt in L. discriminate.
Qed.

Lemma string_leb_trans a b c :
  String.leb a b = true → String.leb b c = true → String.leb a c = true.
Proof.
  rewrite !string_leb_iff. intros [->|Hab] [->|Hbc]; auto.
  right. eapply OrderedTypeEx.String_as_OT.lt_trans; eauto.
Qed.

#[global] Instance rankBefore_total : Total rankBefore.
Proof.
  intros a b. unfold rankBefore.
  destruct (Z.lt_trichotomy (DeviceTotal.value a) (DeviceTotal.value b))
    as [?|[Heq|?]]; [by right; left|..|by left; left].
  destruct (String.leb_total (DeviceTotal.name a) (DeviceTotal.name b)).
  - left. by right.
  - right. right. by rewrite Heq.
Qed.

#[global] Instance rankBefore_trans : Transitive rankBefore.
Proof.
  intros a b c. unfold rankBefore.
  intros [?|[Hab Lab]] [?|[Hbc Lbc]].
  - left. lia.
  - left. lia.
  - left. lia.
  - right. split; [lia|]. eapply string_leb_trans; eauto.
Qed.

Lemma StronglySorted_take {A} (R : relation A) n (l : list A) :
  StronglySorted R l → StronglySorted R (take n l).
Proof.
  intros Hl. revert n. induction Hl as [|x l Hl IH Hx]; intros [|n]; cbn;
    try constructor; auto.
  by apply Forall_take.
Qed.

Lemma StronglySorted_adjacent {A} (R : relation A) (l : list A) i a b :
  StronglySorted R l → l !! i = Some a → l !! S i = Some b → R a b.
Proof.
  intros Hl. revert i. induction Hl as [|x l Hl IH Hx]; intros i Ha Hb; [done|].
  destruct i as [|i]; [|by eapply IH].
  cbn in Ha, Hb. simplify_eq. rewrite Forall_forall in Hx.
  by eapply Hx, list_elem_of_lookup_2.
Qed.

Lemma StronglySorted_weaken {A} (R1 R2 : relation A) (l : list A) :
  (∀ x y, R1 x y → R2 x y) → StronglySorted R1 l → StronglySorted R2 l.
Proof.
  intros HR. induction 1 as [|x l Hl IH Hx]; constructor; [done|].
  eapply Forall_impl; eauto.
Qed.

(** ** Aggregation *)

Lemma elem_of_deviceTotals rs e :
  e ∈ deviceTotals rs ↔
  DeviceTotal.name e ∈ DeviceName <$> rs ∧
  DeviceTotal.value e =
    foldr Z.add 0%Z (Numbers <$> filter (λ r, DeviceName r = DeviceTotal.name e) rs).
Proof.
  unfold deviceTotals. rewrite list_elem_of_fmap.
  setoid_rewrite elem_of_remove_dups. setoid_rewrite unitsWhere_sum.
  assert (Hsum : ∀ n, filter (λ r, bool_decide (DeviceName r = n) = true) rs
                      = filter (λ r, DeviceName r = n) rs).
  { intros n. apply list_filter_iff. intros r. apply bool_decide_eq_true. }
  setoid_rewrite Hsum. split.
  - by intros (n & -> & Hn).
  - intros [Hn Hv]. exists (DeviceTotal.name e). split; [|done].
    destruct e as [n v]. cbn in *. by rewrite Hv.
Qed.

Lemma deviceTotals_NoDup rs : NoDup (DeviceTotal.name <$> deviceTotals rs).
Proof.
  unfold deviceTotals. rewrite <- list_fmap_compose.
  rewrite (list_fmap_ext _ id) by done. rewrite list_fmap_id.
  apply NoDup_remove_dups.
Qed.

Lemma deviceRanking_Permutation rs : deviceRanking rs ≡ₚ deviceTotals rs.
Proof. apply merge_sort_Permutation. Qed.

Lemma deviceRanking_sorted rs : StronglySorted rankBefore (deviceRanking rs).
Proof. apply StronglySorted_merge_sort; apply _. Qed.

(** C7. The top devices of the aggregate result: at most 10 entries; each
    names a device of the collection, no device twice, with the sum of the
    quantities of the records of that device; the entries are sorted by
    sum descending, equal sums by name ascending, so that sums never
    increase along the sequence ([value[i] >= value[i+1]] for every adjacent
    pair); and they are the head of the ranking of all the devices, every
    device left out ranking after all those kept. *)
Theorem topDevices_ranked (parseDate : string → option Z) rs :
  let top := AggregateResult.topDevices (aggregateData parseDate rs) in
  length top ≤ 10 ∧
  NoDup (DeviceTotal.name <$> top) ∧
  Forall (λ e, DeviceTotal.name e ∈ DeviceName <$> rs ∧
               DeviceTotal.value e =
                 foldr Z.add 0%Z
                   (Numbers <$> filter (λ r, DeviceName r = DeviceTotal.name e) rs))
         top ∧
  StronglySorted (λ a b, (DeviceTotal.value b < DeviceTotal.value a)%Z ∨
                         (DeviceTotal.value a = DeviceTotal.value b ∧
                          String.leb (DeviceTotal.name a) (DeviceTotal.name b) = true))
                 top ∧
  StronglySorted (λ a b, (DeviceTotal.value a >= DeviceTotal.value b)%Z) top ∧
  (∀ i a b, top !! i = Some a → top !! S i = Some b →
            (DeviceTotal.value a >= DeviceTotal.value b)%Z) ∧
  (∃ rest, top ++ rest ≡ₚ deviceTotals rs ∧
           StronglySorted rankBefore (top ++ rest) ∧
           length top = min 10 (length (remove_dups (DeviceName <$> rs)))).
Proof.
  cbn. unfold topDevicesOf, topN.
  pose proof (deviceRanking_sorted rs) as Hsorted.
  pose proof (deviceRanking_Permutation rs) as Hperm.
  assert (Hsub : ∀ e, e ∈ take 10 (deviceRanking rs) → e ∈ deviceTotals rs).
  { intros e He. rewrite <- Hperm. by eapply subseteq_take. }
  split_and!.
  - rewrite length_take. lia.
  - apply (sublist_NoDup _ (DeviceTotal.name <$> deviceRanking rs)).
    + rewrite Hperm. apply deviceTotals_NoDup.
    + apply fmap_sublist, sublist_take.
  - apply Forall_forall. intros e He. by apply elem_of_deviceTotals, Hsub.
  - by apply StronglySorted_take.
  - apply StronglySorted_take.
    eapply StronglySorted_weaken; [|exact Hsorted].
    intros a b [?|[? _]]; lia.
  - intros i a b Ha Hb.
    assert (Hab : rankBefore a b).
    { eapply StronglySorted_adjacent; [|exact Ha|exact Hb].
      by apply StronglySorted_take. }
    destruct Hab as [?|[? _]]; lia.
  - exists (drop 10 (deviceRanking rs)). rewrite take_drop. split_and!.
    + done.
    + done.
    + rewrite length_take, Hperm. unfold deviceTotals. by rewrite length_fmap.
Qed.

(** Equal sums are ranked by name; an eleventh device is cut. *)
Example topDevices_example :
  AggregateResult.topDevices
    (aggregateData sampleDate
       [item "S" "D2" "C" 3 ""; item "S" "D1" "C" 1 ""; item "S" "D3" "C" 7 "";
        item "S" "D1" "C" 2 ""]) =
  [DeviceTotal.mk "D3" 7; DeviceTotal.mk "D1" 3; DeviceTotal.mk "D2" 3].
Proof. reflexivity. Qed.

(** The spec's scenario of two records. *)
Example aggregate_scenario :
  aggregateData sampleDate
    [item "S1" "D1" "C" 5 "2024-01-01"; item "S1" "D2" "C" 3 "2024-01-02"] =
  AggregateResult.mk 2 8 1 1
    [SeriesPoint.mk "2024-01-01" 5; SeriesPoint.mk "2024-01-02" 3]
    [DeviceTotal.mk "D1" 5; DeviceTotal.mk "D2" 3].
Proof. reflexivity. Qed.

(** ** Empty input *)

(** C4, as worded, fails on its graph half: on the empty collection
    [renderForceGraph] returns [null], not a graph with no node and no
    link. *)
Lemma empty_input_renders_null :
  renderForceGraph [] = None ∧
  ¬ ∃ g, renderForceGraph [] = Some g ∧
         GraphComponent.nodes g = [] ∧ GraphComponent.links g = [].
Proof. split; [reflexivity|]. by intros (g & Hg & _). Qed.

(** C4, amended. On the empty collection neither engine fails: the aggregate
    is the all-zero, all-empty result, and the graph builder returns [null]:
    no graph is handed to the renderer. *)
Theorem empty_input (parseDate : string → option Z) :
  aggregateData parseDate [] = AggregateResult.mk 0 0%Z 0 0 [] [] ∧
  renderForceGraph [] = None ∧
  producedNodes [] = [] ∧ producedLinks [] = [].
Proof. by split_and!. Qed.


(** * Further properties of the graph builder *)

Lemma length_firstSeen l : length (firstSeen l) ≤ length l.
Proof.
  induction l as [|n l IH]; [done|].
  cbn [firstSeen length].
  pose proof (length_filter (λ m, Node.id m ≠ Node.id n) (firstSeen l)). lia.
Qed.

Lemma length_candidates rs : length (candidates rs) = 3 * length rs.
Proof.
  unfold candidates. induction rs as [|d rs IH]; [done|].
  rewrite bind_cons, length_app, IH. cbn. lia.
Qed.

(** Adding references at the end leaves the nodes kept so far in place. *)
Lemma firstSeen_app l k : ∃ r, firstSeen (l ++ k) = firstSeen l ++ r.
Proof.
  induction l as [|n l [r IH]]; [by exists (firstSeen k)|].
  exists (filter (λ m, Node.id m ≠ Node.id n) r).
  cbn [app firstSeen]. by rewrite IH, filter_app.
Qed.

Lemma elem_of_producedLinks rs l :
  l ∈ producedLinks rs ↔ ∃ d, d ∈ take 100 rs ∧ l ∈ recordLinks d.
Proof.
  rewrite producedLinks_spec, list_elem_of_bind.
  split; intros (d & ? & ?); by exists d.
Qed.

Lemma nodeOf_produced rs d grp : d ∈ take 100 rs → nodeOf grp d ∈ producedNodes rs.
Proof. intros Hd. apply elem_of_producedNodes, elem_of_candidates. eauto. Qed.

(** X1. The size of the graph: at most three nodes and exactly two links for
    each record of the prefix, hence never more than 300 nodes and 200
    links, and at least the three nodes of the first record as soon as there
    is one. *)
Theorem graph_size_bounds rs :
  length (producedNodes rs) ≤ 3 * min 100 (length rs) ∧
  min 3 (3 * length rs) ≤ length (producedNodes rs) ∧
  length (producedNodes rs) ≤ 300 ∧
  length (producedLinks rs) ≤ 200.
Proof.
  assert (Hup : length (producedNodes rs) ≤ 3 * min 100 (length rs)).
  { rewrite producedNodes_spec.
    etrans; [apply length_firstSeen|].
    by rewrite length_candidates, length_take. }
  split_and!; [done| |lia|].
  - destruct rs as [|d rs]; [cbn; lia|].
    assert (Hd : d ∈ take 100 (d :: rs)) by (cbn; apply list_elem_of_here).
    transitivity (length (recordNodes d)); [cbn [recordNodes length]; lia|].
    apply submseteq_length, NoDup_submseteq.
    + apply (NoDup_fmap_1 Node.group). cbn.
      by apply (bool_decide_unpack _).
    + intros n (grp & ->)%elem_of_recordNodes. by apply nodeOf_produced.
  - rewrite producedLinks_spec, length_recordLinks, length_take. lia.
Qed.

(** X2. No node stands alone: every node produced is the source or the target
    of a link produced. *)
Theorem nodes_are_linked rs :
  Forall (λ n, ∃ l, l ∈ producedLinks rs ∧
                    (Link.source l = Node.id n ∨ Link.target l = Node.id n))
         (producedNodes rs).
Proof.
  apply Forall_forall.
  intros n (d & grp & Hd & ->)%elem_of_producedNodes%elem_of_candidates.
  destruct grp.
  - exists (Link.mk (tag Group.supplier +:+ Suppliername d)
                    (tag Group.device +:+ DeviceName d) 1%Z).
    split; [|by left]. apply elem_of_producedLinks. exists d. split; [done|].
    apply list_elem_of_here.
  - exists (Link.mk (tag Group.supplier +:+ Suppliername d)
                    (tag Group.device +:+ DeviceName d) 1%Z).
    split; [|by right]. apply elem_of_producedLinks. exists d. split; [done|].
    apply list_elem_of_here.
  - exists (Link.mk (tag Group.device +:+ DeviceName d)
                    (tag Group.customer +:+ customer d) (Numbers d)).
    split; [|by right]. apply elem_of_producedLinks. exists d. split; [done|].
    apply list_elem_of_further, list_elem_of_here.
Qed.

(** X3. The graph has three layers: every link either goes from a supplier node
    to a device node, with weight 1, or from a device node to a customer
    node. No link joins a supplier to a customer, two nodes of one group, or
    runs backwards. *)
Theorem links_are_layered rs :
  Forall (λ l,
            (∃ s d, Node.mk (Link.source l) Group.supplier s ∈ producedNodes rs ∧
                    Node.mk (Link.target l) Group.device d ∈ producedNodes rs ∧
                    Link.value l = 1%Z) ∨
            (∃ d c, Node.mk (Link.source l) Group.device d ∈ producedNodes rs ∧
                    Node.mk (Link.target l) Group.customer c ∈ producedNodes rs))
         (producedLinks rs).
Proof.
  apply Forall_forall. intros l (d & Hd & Hl)%elem_of_producedLinks.
  unfold recordLinks in Hl. rewrite !elem_of_cons, elem_of_nil in Hl.
  destruct Hl as [->|[->|[]]]; cbn [Link.source Link.target Link.value].
  - left. exists (Suppliername d), (DeviceName d). split_and!; [..|done].
    + apply (nodeOf_produced rs d Group.supplier Hd).
    + apply (nodeOf_produced rs d Group.device Hd).
  - right. exists (DeviceName d), (customer d). split.
    + apply (nodeOf_produced rs d Group.device Hd).
    + apply (nodeOf_produced rs d Group.customer Hd).
Qed.

(** X4. The weights of the links add up to the number of records of the prefix
    (the supplier links, 1 each) plus the sum of their quantities (the
    customer links). *)
Theorem link_weights_total rs :
  foldr Z.add 0%Z (Link.value <$> producedLinks rs) =
  (Z.of_nat (min 100 (length rs)) + foldr Z.add 0%Z (Numbers <$> take 100 rs))%Z.
Proof.
  rewrite producedLinks_spec, <- (length_take rs 100).
  induction (take 100 rs) as [|d l IH]; [done|].
  rewrite bind_cons. cbn [recordLinks app fmap list_fmap foldr length Link.value].
  rewrite IH. lia.
Qed.

(** X5. Growing the collection at its end never moves what was there: the nodes
    and the links of a collection are a prefix of those of any collection
    that extends it, so a node keeps its index. *)
Theorem graph_grows_at_the_end rs more :
  producedNodes rs `prefix_of` producedNodes (rs ++ more) ∧
  producedLinks rs `prefix_of` producedLinks (rs ++ more).
Proof.
  rewrite !producedNodes_spec, !producedLinks_spec, take_app.
  unfold candidates. rewrite !bind_app. split.
  - destruct (firstSeen_app (take 100 rs ≫= recordNodes)
                (take (100 - length rs) more ≫= recordNodes)) as [r ->].
    by apply prefix_app_r.
  - by apply prefix_app_r.
Qed.


(** * Filter options, preview and captions *)

#[global] Instance strLe_total : Total strLe.
Proof. intros x y. apply String.leb_total. Qed.

#[global] Instance strLe_trans : Transitive strLe.
Proof. intros x y z. apply string_leb_trans. Qed.

#[global] Instance strLe_antisymm : AntiSymm (=) strLe.
Proof. intros x y. apply String.leb_antisym. Qed.

Lemma arrayFromSet_from (xs acc : list string) :
  NoDup acc →
  NoDup (fold_left (λ acc x, if decide (x ∈ acc) then acc else acc ++ [x]) xs acc) ∧
  ∀ v, v ∈ fold_left (λ acc x, if decide (x ∈ acc) then acc else acc ++ [x]) xs acc
       ↔ v ∈ acc ∨ v ∈ xs.
Proof.
  revert acc. induction xs as [|x xs IH]; intros acc Hacc; cbn [fold_left].
  - split; [done|]. intros v. rewrite elem_of_nil. tauto.
  - case_decide as Hx.
    + destruct (IH acc Hacc) as [Hnd Hel]. split; [done|].
      intros v. rewrite Hel, elem_of_cons. split; [tauto|].
      intros [?|[->|?]]; auto.
    + assert (Hacc' : NoDup (acc ++ [x])).
      { apply NoDup_app. split_and!; [done| |apply NoDup_singleton].
        intros y Hy ->%list_elem_of_singleton. done. }
      destruct (IH _ Hacc') as [Hnd Hel]. split; [done|].
      intros v. rewrite Hel, elem_of_app, list_elem_of_singleton, elem_of_cons. tauto.
Qed.

Lemma arrayFromSet_NoDup xs : NoDup (arrayFromSet xs).
Proof. apply arrayFromSet_from, NoDup_nil_2. Qed.

Lemma elem_of_arrayFromSet xs v : v ∈ arrayFromSet xs ↔ v ∈ xs.
Proof.
  unfold arrayFromSet.
  destruct (arrayFromSet_from xs [] (NoDup_nil_2)) as [_ Hel].
  rewrite Hel, elem_of_nil. tauto.
Qed.

Lemma strictly_sorted (l : list string) :
  StronglySorted strLe l → NoDup l → StronglySorted (λ x y, strLe x y ∧ x ≠ y) l.
Proof.
  induction 1 as [|x l Hl IH Hx]; intros Hnd; [constructor|].
  apply NoDup_cons in Hnd as [Hxl Hnd]. constructor; auto.
  rewrite Forall_forall in Hx |- *. intros y Hy. split; [by apply Hx|].
  by intros ->.
Qed.

(** The options read off a column: strictly ascending, and exactly the
    values of the column. *)
Lemma options_spec xs :
  StronglySorted (λ x y, strLe x y ∧ x ≠ y) (sortDefault (arrayFromSet xs)) ∧
  ∀ v, v ∈ sortDefault (arrayFromSet xs) ↔ v ∈ xs.
Proof.
  unfold sortDefault. split.
  - apply strictly_sorted.
    + apply StronglySorted_merge_sort; apply _.
    + rewrite merge_sort_Permutation. apply arrayFromSet_NoDup.
  - intros v. by rewrite merge_sort_Permutation, elem_of_arrayFromSet.
Qed.

Lemma options_ext xs ys :
  (∀ v, v ∈ xs ↔ v ∈ ys) →
  sortDefault (arrayFromSet xs) = sortDefault (arrayFromSet ys).
Proof.
  intros Hxy. unfold sortDefault. apply (Sorted_unique strLe).
  - apply Sorted_merge_sort; apply _.
  - apply Sorted_merge_sort; apply _.
  - rewrite !merge_sort_Permutation.
    apply NoDup_Permutation; [apply arrayFromSet_NoDup..|].
    intros v. by rewrite !elem_of_arrayFromSet.
Qed.

Lemma elem_of_options (col : PackingListItem → string) data v :
  v ∈ sortDefault (arrayFromSet (col <$> data)) ↔ ∃ d, d ∈ data ∧ col d = v.
Proof.
  destruct (options_spec (col <$> data)) as [_ Hel].
  rewrite Hel, list_elem_of_fmap. split; intros (d & ? & ?); eauto.
Qed.


(** X7. The options depend on which records there are, not on their order or
    number: two collections with the same records have the same options. *)
Theorem filter_options_order_independent data data' :
  (∀ d, d ∈ data ↔ d ∈ data') →
  uniqueSuppliers data = uniqueSuppliers data' ∧
  uniqueDevices data = uniqueDevices data'.
Proof.
  intros Hsame. unfold uniqueSuppliers, uniqueDevices.
  split; apply options_ext; intros v; rewrite !list_elem_of_fmap;
    split; intros (d & ? & ?); exists d; split; try done; by apply Hsame.
Qed.

Lemma filter_options_order_independent_witness :
  uniqueSuppliers [item "B" "Y" "C" 1 ""; item "A" "X" "C" 2 ""] =
    uniqueSuppliers [item "A" "X" "C" 2 ""; item "B" "Y" "C" 1 "";
                     item "A" "X" "C" 2 ""] ∧
  uniqueDevices [item "B" "Y" "C" 1 ""; item "A" "X" "C" 2 ""] =
    uniqueDevices [item "A" "X" "C" 2 ""; item "B" "Y" "C" 1 "";
                   item "A" "X" "C" 2 ""].
Proof.
  apply filter_options_order_independent.
  intros d. rewrite !elem_of_cons, !elem_of_nil. tauto.
Defined.

Example filter_options_example :
  uniqueSuppliers [item "B" "Y" "C" 1 ""; item "" "X" "C" 2 ""; item "A" "X" "C" 2 "";
                   item "B" "X" "C" 2 ""] = [""; "A"; "B"].
Proof. reflexivity. Qed.

(** X8. Whatever the graph shows can be picked in the filter bar: when the
    collection drawn is taken from the data loaded, the label of every
    supplier node is a supplier option and the label of every device node a
    device option. *)
Theorem graph_labels_are_options filtered data :
  filtered ⊆ data →
  Forall (λ n, match Node.group n with
               | Group.supplier => Node.label n ∈ uniqueSuppliers data
               | Group.device => Node.label n ∈ uniqueDevices data
               | Group.customer => True
               end)
         (producedNodes filtered).
Proof.
  intros Hsub. apply Forall_forall.
  intros n (d & grp & Hd & ->)%elem_of_producedNodes%elem_of_candidates.
  assert (Hdata : d ∈ data) by by eapply Hsub, subseteq_take.
  destruct grp; cbn; [| |done].
  - apply (elem_of_options (λ d, Suppliername d)). eauto.
  - apply (elem_of_options (λ d, DeviceName d)). eauto.
Qed.

Lemma graph_labels_are_options_witness :
  Forall (λ n, match Node.group n with
               | Group.supplier =>
                   Node.label n ∈ uniqueSuppliers [item "B" "Y" "C" 1 ""; item "A" "X" "C" 2 ""]
               | Group.device =>
                   Node.label n ∈ uniqueDevices [item "B" "Y" "C" 1 ""; item "A" "X" "C" 2 ""]
               | Group.customer => True
               end)
         (producedNodes [item "A" "X" "C" 2 ""]).
Proof.
  apply graph_labels_are_options.
  intros d ->%list_elem_of_singleton. apply list_elem_of_further, list_elem_of_here.
Defined.

(** X9. The preview table shows the first 50 records, which are the first half
    of what the graph is drawn from: every row of the preview has its three
    nodes in the graph. *)
Theorem preview_rows_in_graph rs :
  previewRows rs = take 50 (take 100 rs) ∧
  length (previewRows rs) = min 50 (length rs) ∧
  Forall (λ d, ∀ grp, nodeOf grp d ∈ producedNodes rs) (previewRows rs).
Proof.
  unfold previewRows. rewrite slice_0. split_and!.
  - by rewrite take_take.
  - apply length_take.
  - apply Forall_forall. intros d Hd grp. apply nodeOf_produced.
    replace (take 50 rs) with (take 50 (take 100 rs)) in Hd by by rewrite take_take.
    by eapply subseteq_take.
Qed.






Example caption_example :
  caption "Acme Corp" = "Acme Corp" ∧
  caption "Acme Medical" = "Acme Medic...".
Proof. split; reflexivity. Qed.

(** * The style jackpot *)

Lemma tick_counting PS idx now st k :
  interval st = Some k → S k ≤ 10 →
  tick PS idx now st =
  {| theme := PS !! idx; isJackpotSpinning := isJackpotSpinning st;
     logs_of := logs_of st; interval := Some (S k) |}.
Proof.
  intros Hk Hle. unfold tick. rewrite Hk. cbv zeta.
  destruct (10 <? S k) eqn:Hlt; [|done].
  apply Nat.ltb_lt in Hlt. lia.
Qed.

(** While the counter has not passed 10 the timer goes on, the flag and the
    log stay as they are. *)
Lemma ticks_counting PS draws st k :
  interval st = Some k → k + length draws ≤ 10 →
  interval (ticks PS draws st) = Some (k + length draws) ∧
  isJackpotSpinning (ticks PS draws st) = isJackpotSpinning st ∧
  logs_of (ticks PS draws st) = logs_of st.
Proof.
  revert st k. induction draws as [|[idx now] draws IH]; intros st k Hk Hle.
  - cbn. by rewrite Nat.add_0_r.
  - cbn [length] in Hle. cbn [ticks fold_left fst snd].
    rewrite (tick_counting PS idx now st k) by (done || lia).
    destruct (IH {| theme := PS !! idx; isJackpotSpinning := isJackpotSpinning st;
                    logs_of := logs_of st; interval := Some (S k) |} (S k))
      as (Hi & Hs & Hl); [done|lia|].
    unfold ticks in *. rewrite Hi, Hs, Hl. cbn [length]. split_and!; [f_equal; lia|done..].
Qed.

(** Once the timer is cleared nothing runs any more. *)
Lemma ticks_stopped PS draws st : interval st = None → ticks PS draws st = st.
Proof.
  intros Hst. induction draws as [|[idx now] draws IH]; [done|].
  cbn [ticks fold_left fst snd]. unfold tick at 2. by rewrite Hst.
Qed.

(** X11. A spin, started with no timer running, lasts through its first ten
    theme changes: after up to ten runs of the timer the jackpot is still
    spinning, the timer is still set and
    nothing has been logged. *)
Theorem jackpot_keeps_spinning PS draws st :
  interval st = None → length draws ≤ 10 →
  isJackpotSpinning (ticks PS draws (handleSpinJackpot st)) = true ∧
  interval (ticks PS draws (handleSpinJackpot st)) = Some (length draws) ∧
  logs_of (ticks PS draws (handleSpinJackpot st)) = logs_of st.
Proof.
  intros _ Hlen.
  destruct (ticks_counting PS draws (handleSpinJackpot st) 0) as (Hi & Hs & Hl);
    [done|by cbn|].
  by rewrite Hi, Hs, Hl.
Qed.

Lemma jackpot_keeps_spinning_witness :
  isJackpotSpinning
    (ticks [PainterStyle.mk "Monet" (PainterStyle.mkColors "p" "s" "a" "b" "t" "c")]
       (replicate 10 (0, 5%Z))
       (handleSpinJackpot
          {| theme := None; isJackpotSpinning := false; logs_of := [];
             interval := None |})) = true ∧
  interval
    (ticks [PainterStyle.mk "Monet" (PainterStyle.mkColors "p" "s" "a" "b" "t" "c")]
       (replicate 10 (0, 5%Z))
       (handleSpinJackpot
          {| theme := None; isJackpotSpinning := false; logs_of := [];
             interval := None |})) = Some (length (replicate 10 (0, 5%Z))) ∧
  logs_of
    (ticks [PainterStyle.mk "Monet" (PainterStyle.mkColors "p" "s" "a" "b" "t" "c")]
       (replicate 10 (0, 5%Z))
       (handleSpinJackpot
          {| theme := None; isJackpotSpinning := false; logs_of := [];
             interval := None |})) = [].
Proof.
  apply (jackpot_keeps_spinning
           [PainterStyle.mk "Monet" (PainterStyle.mkColors "p" "s" "a" "b" "t" "c")]
           (replicate 10 (0, 5%Z))).
  - reflexivity.
  - cbn. lia.
Defined.

(** X12. A spin started with no timer running ends on the eleventh run of the
    timer, not the tenth: that run
    sets the last theme, clears the timer, resets the flag and logs one
    "Theme Change" entry naming the very style that was set; whatever the
    timer might have drawn afterwards has no effect. *)
Theorem jackpot_stops_on_eleventh PS st draws idx now style more :
  interval st = None → length draws = 10 → PS !! idx = Some style →
  ticks PS (draws ++ (idx, now) :: more) (handleSpinJackpot st) =
  {| theme := Some style;
     isJackpotSpinning := false;
     logs_of := UsageLog.mk now "Theme Change" ("Spun to " +:+ PainterStyle.name style)
                  :: logs_of st;
     interval := None |}.
Proof.
  intros _ Hlen Hstyle.
  destruct (ticks_counting PS draws (handleSpinJackpot st) 0) as (Hi & Hs & Hl);
    [done|cbn; lia|].
  rewrite Hlen in Hi.
  assert (Hlast : tick PS idx now (ticks PS draws (handleSpinJackpot st)) =
                  {| theme := Some style; isJackpotSpinning := false;
                     logs_of := UsageLog.mk now "Theme Change"
                                  ("Spun to " +:+ PainterStyle.name style) :: logs_of st;
                     interval := None |}).
  { unfold tick. rewrite Hi. cbv zeta. cbn [Nat.ltb Nat.leb].
    by rewrite Hstyle, Hl. }
  unfold ticks at 1. rewrite fold_left_app. cbn [fold_left fst snd].
  fold (ticks PS draws (handleSpinJackpot st)). rewrite Hlast.
  by apply (ticks_stopped PS more).
Qed.

Lemma jackpot_stops_on_eleventh_witness :
  ticks [PainterStyle.mk "Monet" (PainterStyle.mkColors "p" "s" "a" "b" "t" "c");
         PainterStyle.mk "Klimt" (PainterStyle.mkColors "p" "s" "a" "b" "t" "c")]
    (replicate 10 (0, 5%Z) ++ [(1, 7%Z); (0, 9%Z)])
    (handleSpinJackpot
       {| theme := None; isJackpotSpinning := false; logs_of := [];
          interval := None |}) =
  {| theme := Some (PainterStyle.mk "Klimt" (PainterStyle.mkColors "p" "s" "a" "b" "t" "c"));
     isJackpotSpinning := false;
     logs_of := [UsageLog.mk 7%Z "Theme Change" "Spun to Klimt"];
     interval := None |}.
Proof.
  apply (jackpot_stops_on_eleventh
           [PainterStyle.mk "Monet" (PainterStyle.mkColors "p" "s" "a" "b" "t" "c");
            PainterStyle.mk "Klimt" (PainterStyle.mkColors "p" "s" "a" "b" "t" "c")]
           {| theme := None; isJackpotSpinning := false; logs_of := [];
              interval := None |}
           (replicate 10 (0, 5%Z)) 1 7%Z
           (PainterStyle.mk "Klimt" (PainterStyle.mkColors "p" "s" "a" "b" "t" "c"))
           [(0, 9%Z)]).
  - reflexivity.
  - reflexivity.
  - reflexivity.
Defined.


(** * Agents *)

Lemma find_first {A} (f : A → bool) (l : list A) a :
  List.find f l = Some a →
  f a = true ∧ ∃ i, l !! i = Some a ∧ ∀ j b, j < i → l !! j = Some b → f b = false.
Proof.
  induction l as [|x l IH]; [done|]. cbn [List.find].
  destruct (f x) eqn:Hx.
  - intros [= ->]. split; [done|]. exists 0. split; [done|]. intros; lia.
  - intros (Ha & i & Hi & Hbefore)%IH. split; [done|]. exists (S i). split; [done|].
    intros [|j] b Hj Hb; cbn in Hb; [by simplify_eq|].
    apply (Hbefore j); [lia|done].
Qed.

Lemma find_nobody {A} (f : A → bool) (l : list A) :
  List.find f l = None → ∀ b, b ∈ l → f b = false.
Proof. intros Hnone b Hb%list_elem_of_In. by eapply find_none. Qed.

Lemma current_agent_present {Yaml} (agents : list (AgentDef.t Yaml)) selected :
  agents ≠ [] → is_Some (currentAgent agents selected).
Proof.
  intros Hne. unfold currentAgent. destruct (List.find _ agents); [done|].
  by destruct agents.
Qed.

(** X13. The current agent: with no agent loaded there is none; otherwise there
    always is one, taken from the list: the first agent whose id is the
    selected one, or, when no agent has that id (nothing selected yet, or an
    agent that is gone), the first agent of the list. *)
Theorem current_agent_spec {Yaml} (agents : list (AgentDef.t Yaml)) (selected : string) :
  match currentAgent agents selected with
  | Some a =>
      a ∈ agents ∧
      ((AgentDef.id a = selected ∧
        ∃ i, agents !! i = Some a ∧
             ∀ j b, j < i → agents !! j = Some b → AgentDef.id b ≠ selected) ∨
       ((∀ b, b ∈ agents → AgentDef.id b ≠ selected) ∧ agents !! 0 = Some a))
  | None => agents = []
  end.
Proof.
  unfold currentAgent.
  destruct (List.find _ agents) as [a|] eqn:Hfind.
  - apply find_first in Hfind as (Ha%String.eqb_eq & i & Hi & Hbefore).
    split; [by eapply list_elem_of_lookup_2|]. left. split; [done|].
    exists i. split; [done|]. intros j b Hj Hb.
    by apply String.eqb_neq, (Hbefore j).
  - destruct agents as [|a agents]; [done|]. cbn. split; [apply list_elem_of_here|].
    right. split; [|done]. intros b Hb.
    by apply String.eqb_neq, (find_nobody _ _ Hfind).
Qed.

Lemma agentsListOf_ids {Yaml} truthy nullish prop entries emptyArray toUpperCase
    (agents : Yaml) l :
  agentsListOf Yaml truthy nullish prop entries emptyArray toUpperCase agents = Some l →
  AgentDef.id <$> l = fst <$> entries agents.
Proof.
  unfold agentsListOf. intros Hall%mapM_Some_1.
  induction Hall as [|[key val] a es l Ha _ IH]; [done|].
  cbn [fmap list_fmap fst]. rewrite IH. f_equal.
  unfold agentOfEntry in Ha. destruct (nullish val); [done|]. by simplify_eq.
Qed.

Lemma agentsListOf_defined {Yaml} truthy nullish prop entries emptyArray toUpperCase
    (agents : Yaml) :
  Forall (λ e, nullish e.2 = false) (entries agents) →
  is_Some (agentsListOf Yaml truthy nullish prop entries emptyArray toUpperCase agents).
Proof.
  intros Hok. apply mapM_is_Some_2. eapply Forall_impl; [exact Hok|].
  intros [key val] Hval. cbn in *. by rewrite Hval.
Qed.

(** X14. Loading a configuration: when the document has an [agents] mapping with
    no empty entry, the agents become those of the document, one for each
    key and in their order, under the key as id. A selection made before is
    kept; with none, the first key is selected and its agent is the current
    one. In any case some agent is current if the mapping has an entry. *)
Theorem agents_loaded {Yaml} load truthy nullish prop entries emptyArray toUpperCase
    (agentsYaml : string) (st : AgentState Yaml) (doc : Yaml) :
  load agentsYaml = Some doc →
  truthy doc = true → truthy (prop doc "agents") = true →
  Forall (λ e, nullish e.2 = false) (entries (prop doc "agents")) →
  let st' := agentsEffect Yaml load truthy nullish prop entries emptyArray
               toUpperCase agentsYaml st in
  AgentDef.id <$> parsedAgents st' = fst <$> entries (prop doc "agents") ∧
  selectedAgentId st' =
    (if decide (selectedAgentId st = "")
     then default "" (head (fst <$> entries (prop doc "agents")))
     else selectedAgentId st) ∧
  (if decide (selectedAgentId st = "")
   then currentAgent (parsedAgents st') (selectedAgentId st') = parsedAgents st' !! 0
   else True) ∧
  (if decide (entries (prop doc "agents") = [])
   then parsedAgents st' = []
   else is_Some (currentAgent (parsedAgents st') (selectedAgentId st'))).
Proof.
  intros Hload Hdoc Hagents Hok. cbv zeta. unfold agentsEffect.
  rewrite Hload, Hdoc, Hagents. cbn [andb].
  destruct (agentsListOf_defined truthy nullish prop entries emptyArray toUpperCase
              (prop doc "agents") Hok) as [l Hl].
  rewrite Hl. cbn [parsedAgents selectedAgentId].
  pose proof (agentsListOf_ids _ _ _ _ _ _ _ _ Hl) as Hids.
  destruct l as [|a l].
  - destruct (entries (prop doc "agents")) as [|e es]; [|done].
    cbn [fmap list_fmap head default]. split_and!.
    + done.
    + by case_decide.
    + by case_decide.
    + by rewrite decide_True.
  - destruct (entries (prop doc "agents")) as [|[key val] es] eqn:Hes; [done|].
    cbn [fmap list_fmap fst] in Hids. injection Hids as Hkey Hrest.
    split_and!.
    + cbn [fmap list_fmap fst]. by rewrite Hkey, Hrest.
    + cbn [fmap list_fmap fst head default].
      case_bool_decide; case_decide; done.
    + case_decide as Hsel; [|done]. rewrite bool_decide_eq_true_2 by done.
      unfold currentAgent. cbn [List.find]. by rewrite String.eqb_refl.
    + rewrite decide_False by done.
      unfold currentAgent. by destruct (List.find _ _).
Qed.

Lemma agents_loaded_witness :
  AgentDef.id <$>
    parsedAgents
      (agentsEffect SampleYaml sampleLoad sampleTruthy sampleNullish sampleProp
         sampleEntries (YMap []) id
         "agents: {data_analyst: {model: m1}, risk_officer: {model: m2}}"
         {| parsedAgents := []; selectedAgentId := "" |})
    = ["data_analyst"; "risk_officer"] ∧
  selectedAgentId
    (agentsEffect SampleYaml sampleLoad sampleTruthy sampleNullish sampleProp
       sampleEntries (YMap []) id
       "agents: {data_analyst: {model: m1}, risk_officer: {model: m2}}"
       {| parsedAgents := []; selectedAgentId := "" |}) = "data_analyst" ∧
  currentAgent
    (parsedAgents
       (agentsEffect SampleYaml sampleLoad sampleTruthy sampleNullish sampleProp
          sampleEntries (YMap []) id
          "agents: {data_analyst: {model: m1}, risk_officer: {model: m2}}"
          {| parsedAgents := []; selectedAgentId := "" |}))
    "data_analyst"
    = Some (AgentDef.mk "data_analyst" "data analyst" YNull YNull (YText "m1")
              (YMap []) YNull) ∧
  is_Some
    (currentAgent
       (parsedAgents
          (agentsEffect SampleYaml sampleLoad sampleTruthy sampleNullish sampleProp
             sampleEntries (YMap []) id
             "agents: {data_analyst: {model: m1}, risk_officer: {model: m2}}"
             {| parsedAgents := []; selectedAgentId := "" |}))
       "data_analyst").
Proof.
  apply (agents_loaded sampleLoad sampleTruthy sampleNullish sampleProp
           sampleEntries (YMap []) id
           "agents: {data_analyst: {model: m1}, risk_officer: {model: m2}}"
           {| parsedAgents := []; selectedAgentId := "" |}
           (YMap [("agents",
                   YMap [("data_analyst", YMap [("model", YText "m1")]);
                         ("risk_officer", YMap [("model", YText "m2")])])])).
  - reflexivity.
  - reflexivity.
  - reflexivity.
  - repeat constructor.
Defined.

(** X15. A selection once made survives every reload of the configuration,
    whether the document loads or not and whether or not it still has an
    agent of that id. *)
Theorem selection_is_sticky {Yaml} load truthy nullish prop entries emptyArray
    toUpperCase (agentsYaml : string) (st : AgentState Yaml) :
  selectedAgentId st ≠ "" →
  selectedAgentId (agentsEffect Yaml load truthy nullish prop entries emptyArray
                     toUpperCase agentsYaml st) = selectedAgentId st.
Proof.
  intros Hsel. unfold agentsEffect.
  destruct (load agentsYaml) as [doc|]; [|done].
  destruct (truthy doc && truthy (prop doc "agents")); [|done].
  destruct (agentsListOf _ _ _ _ _ _ _ _) as [[|a l]|]; [done| |done].
  cbn. by rewrite bool_decide_eq_false_2.
Qed.

Lemma selection_is_sticky_witness :
  selectedAgentId
    (agentsEffect SampleYaml sampleLoad sampleTruthy sampleNullish sampleProp
       sampleEntries (YMap []) id
       "agents: {data_analyst: {model: m1}, risk_officer: {model: m2}}"
       {| parsedAgents := [sampleAgent "old_agent"]; selectedAgentId := "old_agent" |})
  = "old_agent".
Proof.
  apply (selection_is_sticky sampleLoad sampleTruthy sampleNullish sampleProp
           sampleEntries (YMap []) id
           "agents: {data_analyst: {model: m1}, risk_officer: {model: m2}}"
           {| parsedAgents := [sampleAgent "old_agent"];
              selectedAgentId := "old_agent" |}).
  discriminate.
Defined.

(** * Chat *)

(** X16. A message sent and answered: when the input is not blank and an agent is
    current, a run of the handler whose request is answered appends exactly
    two messages, the user's text as typed (not trimmed) and then the answer,
    tagged with the id of the agent and the model of the moment of sending;
    the input is emptied, the loading flag is back to false and one
    "Agent Chat" entry is logged. *)
Theorem chat_exchange {Yaml} (trim : string → string) now (agents : AgentState Yaml)
    selectedModel responseText later logged st agent :
  trim (chatInput st) ≠ "" →
  currentAgent (parsedAgents agents) (selectedAgentId agents) = Some agent →
  handleSendMessage Yaml trim now agents selectedModel (Some responseText)
    later logged st =
  {| chatMessages :=
       chatMessages st ++
       [ChatMessage.mk ChatMessage.user (chatInput st) now None None;
        ChatMessage.mk ChatMessage.model responseText later
          (Some (AgentDef.id agent)) (Some selectedModel)];
     chatInput := "";
     isChatLoading := false;
     chatLogs :=
       UsageLog.mk logged "Agent Chat"
         ("Used " +:+ AgentDef.name agent +:+ " with " +:+ selectedModel)
       :: chatLogs st |}.
Proof.
  intros Hinput Hagent.
  unfold handleSendMessage, handleSendMessage_request. rewrite Hagent.
  rewrite bool_decide_eq_false_2 by done.
  unfold handleSendMessage_reply, logEvent. cbn. by rewrite <- app_assoc.
Qed.

Lemma chat_exchange_witness :
  handleSendMessage SampleYaml sampleTrim 10%Z
    {| parsedAgents := [sampleAgent "analyst"; sampleAgent "auditor"];
       selectedAgentId := "auditor" |}
    "model-a" (Some "Three suppliers.") 12%Z 13%Z
    {| chatMessages := []; chatInput := " how many suppliers? ";
       isChatLoading := false; chatLogs := [] |} =
  {| chatMessages :=
       [ChatMessage.mk ChatMessage.user " how many suppliers? " 10%Z None None;
        ChatMessage.mk ChatMessage.model "Three suppliers." 12%Z
          (Some "auditor") (Some "model-a")];
     chatInput := "";
     isChatLoading := false;
     chatLogs := [UsageLog.mk 13%Z "Agent Chat" "Used auditor with model-a"] |}.
Proof.
  apply (chat_exchange sampleTrim 10%Z
           {| parsedAgents := [sampleAgent "analyst"; sampleAgent "auditor"];
              selectedAgentId := "auditor" |}
           "model-a" "Three suppliers." 12%Z 13%Z
           {| chatMessages := []; chatInput := " how many suppliers? ";
              isChatLoading := false; chatLogs := [] |}
           (sampleAgent "auditor")).
  - discriminate.
  - reflexivity.
Defined.

(** X17. Nothing is sent on a blank input or without agents: the handler leaves
    the conversation, the input, the flag and the log as they are. *)
Theorem chat_guard {Yaml} (trim : string → string) now (agents : AgentState Yaml)
    selectedModel response later logged st :
  trim (chatInput st) = "" ∨ parsedAgents agents = [] →
  handleSendMessage Yaml trim now agents selectedModel response later logged st = st.
Proof.
  intros Hguard. unfold handleSendMessage, handleSendMessage_request.
  destruct Hguard as [Hblank| ->].
  - destruct (currentAgent _ _); [|done]. by rewrite bool_decide_eq_true_2.
  - done.
Qed.

Lemma chat_guard_witness :
  handleSendMessage SampleYaml sampleTrim 10%Z
    {| parsedAgents := [sampleAgent "analyst"]; selectedAgentId := "analyst" |}
    "model-a" (Some "?") 12%Z 13%Z
    {| chatMessages := []; chatInput := "   ";
       isChatLoading := false; chatLogs := [] |} =
  {| chatMessages := []; chatInput := "   ";
     isChatLoading := false; chatLogs := [] |}.
Proof.
  apply (chat_guard sampleTrim 10%Z
           {| parsedAgents := [sampleAgent "analyst"]; selectedAgentId := "analyst" |}
           "model-a" (Some "?") 12%Z 13%Z
           {| chatMessages := []; chatInput := "   ";
              isChatLoading := false; chatLogs := [] |}).
  left. reflexivity.
Defined.

(** X18. The handler has no handling of a failed request: when the request is
    rejected the run ends at once, with the user's message in the
    conversation, the input emptied, nothing logged, and the loading flag
    left on. *)
Theorem chat_stays_loading_on_failure {Yaml} (trim : string → string) now
    (agents : AgentState Yaml) selectedModel later logged st :
  trim (chatInput st) ≠ "" → parsedAgents agents ≠ [] →
  handleSendMessage Yaml trim now agents selectedModel None later logged st =
  {| chatMessages :=
       chatMessages st ++ [ChatMessage.mk ChatMessage.user (chatInput st) now None None];
     chatInput := "";
     isChatLoading := true;
     chatLogs := chatLogs st |}.
Proof.
  intros Hinput Hagents. unfold handleSendMessage, handleSendMessage_request.
  pose proof (current_agent_present (parsedAgents agents) (selectedAgentId agents)
                Hagents) as [agent ->].
  by rewrite bool_decide_eq_false_2.
Qed.

Lemma chat_stays_loading_on_failure_witness :
  handleSendMessage SampleYaml sampleTrim 10%Z
    {| parsedAgents := [sampleAgent "analyst"]; selectedAgentId := "" |}
    "model-a" None 12%Z 13%Z
    {| chatMessages := []; chatInput := "hello";
       isChatLoading := false; chatLogs := [] |} =
  {| chatMessages := [ChatMessage.mk ChatMessage.user "hello" 10%Z None None];
     chatInput := "";
     isChatLoading := true;
     chatLogs := [] |}.
Proof.
  apply (chat_stays_loading_on_failure sampleTrim 10%Z
           {| parsedAgents := [sampleAgent "analyst"]; selectedAgentId := "" |}
           "model-a" 12%Z 13%Z
           {| chatMessages := []; chatInput := "hello";
              isChatLoading := false; chatLogs := [] |}).
  - discriminate.
  - discriminate.
Defined.

(** X19. Messages are only ever added at the end: whatever the arguments, the
    conversation before a run is a prefix of the conversation after it, and
    a run adds at most two messages; the same holds for the second half of
    the handler run on its own, on whatever the conversation has become. *)
Theorem chat_is_append_only {Yaml} (trim : string → string) now
    (agents : AgentState Yaml) selectedModel response later logged st p answer :
  chatMessages st `prefix_of`
    chatMessages (handleSendMessage Yaml trim now agents selectedModel response
                    later logged st) ∧
  length (chatMessages (handleSendMessage Yaml trim now agents selectedModel
                          response later logged st))
    ≤ length (chatMessages st) + 2 ∧
  chatMessages st `prefix_of`
    chatMessages (handleSendMessage_reply Yaml p answer later logged st).
Proof.
  split_and!; [| |by apply prefix_app_r].
  - unfold handleSendMessage, handleSendMessage_request.
    destruct (currentAgent _ _); [|done]. case_bool_decide; [done|].
    destruct response; cbn; [rewrite <- app_assoc|]; by apply prefix_app_r.
  - unfold handleSendMessage, handleSendMessage_request.
    destruct (currentAgent _ _); [|lia]. case_bool_decide; [lia|].
    destruct response; cbn; rewrite ?length_app; cbn; lia.
Qed.
